(** * Lazy data-flow streams of [processing.h]: a shallow embedding

    The header builds pipelines out of [DataStream<T>] objects.  Every
    stream hands out cursors ([DataStream<T>::Iterator]) with four
    operations: [operator*], [operator++], [operator!=] and [getIsEnd].
    Sources, adapters and sinks are modelled below, one section per
    class, in the order of the header. *)

From Stdlib Require Import Ascii String.
From stdpp Require Import base option list gmap strings.

Set Default Proof Using "Type".
Open Scope N_scope.

(** ** Outcomes of a C++ call

    A call either returns, throws [std::runtime_error], steps outside
    defined behaviour (an unchecked read outside a vector, a read
    through a null or uninitialised pointer, an increment of a past-the-end
    library iterator), or exhausts the loop budget given to the model. *)

Inductive outcome (A : Type) : Type :=
| Value (a : A)
| Throws
| Undefined
| OutOfFuel.

Arguments Value {A} a.
Arguments Throws {A}.
Arguments Undefined {A}.
Arguments OutOfFuel {A}.

Definition obind {A B : Type} (m : outcome A) (k : A -> outcome B) : outcome B :=
  match m with
  | Value a => k a
  | Throws => Throws
  | Undefined => Undefined
  | OutOfFuel => OutOfFuel
  end.

Notation "'let!' x ':=' m 'in' k" := (obind m (fun x => k))
  (at level 10, x pattern, m at level 100, k at level 200).

(** [size_t] on the 64-bit targets the header is built for. *)
Definition size_max : N := 2 ^ 64.
Definition size_succ (i : N) : N := (i + 1) mod size_max.

(** ** [DataStream<T>]

    [Iter] is the concrete cursor class of the stream.  [begin_ptr] and
    [end_ptr] run the cursor's constructor, which for several adapters
    already pulls from upstream and may therefore fail. *)

Record DataStream (T : Type) : Type := {
  Iter : Type;
  begin_ptr : outcome Iter;
  end_ptr : outcome Iter;
  deref : Iter -> outcome T;
  incr : Iter -> outcome Iter;
  neq : Iter -> Iter -> outcome bool;
  getIsEnd : Iter -> bool
}.

Arguments Iter {T} _.
Arguments begin_ptr {T} _.
Arguments end_ptr {T} _.
Arguments deref {T} _ _.
Arguments incr {T} _ _.
Arguments neq {T} _ _ _.
Arguments getIsEnd {T} _ _.

(** ** [VectorDataStream<T>] *)

Module Vector.
Section Vector.
Context {T : Type}.

(** [data] is a raw pointer to the owning stream's vector; the default
    constructor leaves it (and [index]) without an initialiser, which
    is rendered as [None] and [0]. *)
Record VectorIterator : Type := {
  data : option (list T);
  index : N;
  is_end : bool
}.

(** [VectorIterator(const std::vector<T>& data)] *)
Definition make (d : list T) : VectorIterator :=
  {| data := Some d; index := 0; is_end := false |}.

(** [VectorIterator()] *)
Definition make_end : VectorIterator :=
  {| data := None; index := 0; is_end := true |}.

(** [operator*]: [return ( *data)[index];], an unchecked subscript. *)
Definition deref (it : VectorIterator) : outcome T :=
  match data it with
  | Some d =>
      match d !! N.to_nat (index it) with
      | Some x => Value x
      | None => Undefined
      end
  | None => Undefined
  end.

(** [operator++] *)
Definition incr (it : VectorIterator) : VectorIterator :=
  let index' := size_succ (index it) in
  match data it with
  | Some d =>
      if N.of_nat (length d) <=? index'
      then {| data := data it; index := index'; is_end := true |}
      else {| data := data it; index := index'; is_end := is_end it |}
  | None => {| data := data it; index := index'; is_end := is_end it |}
  end.

(** [operator!=]: [return !is_end || !other_ptr->is_end;] *)
Definition neq (a b : VectorIterator) : bool :=
  negb (is_end a) || negb (is_end b).

Definition getIsEnd (it : VectorIterator) : bool := is_end it.
End Vector.
Arguments VectorIterator : clear implicits.
End Vector.

Definition VectorDataStream {T : Type} (d : list T) : DataStream T := {|
  Iter := Vector.VectorIterator T;
  begin_ptr := Value (Vector.make d);
  end_ptr := Value Vector.make_end;
  deref := Vector.deref;
  incr := fun it => Value (Vector.incr it);
  neq := fun a b => Value (Vector.neq a b);
  getIsEnd := Vector.getIsEnd
|}.

(** [AsDataFlow(const std::vector<T>&)] *)
Definition AsDataFlow {T : Type} (d : list T) : DataStream T := VectorDataStream d.

(** ** [AsVector]

    [while (it != end) { result.push_back( *it); ++it; }] *)

Fixpoint AsVector_loop {T : Type} (fuel : nat) (s : DataStream T)
    (it e : Iter s) (result : list T) : outcome (list T) :=
  match fuel with
  | O => OutOfFuel
  | S fuel' =>
      let! b := neq s it e in
      if b : bool then
        let! x := deref s it in
        let! it' := incr s it in
        AsVector_loop fuel' s it' e (result ++ [x])
      else Value result
  end.

Definition AsVector {T : Type} (fuel : nat) (s : DataStream T) : outcome (list T) :=
  let! it := begin_ptr s in
  let! e := end_ptr s in
  AsVector_loop fuel s it e [].

(** ** [FilteredDataStream<T>]

    The cursor stores the upstream cursor [it], the upstream end cursor
    [end] and the predicate. *)

Module Filtered.
Section Filtered.
Context {T : Type} (up : DataStream T) (predicate : T -> bool).

Record FilteredIterator : Type := {
  it : Iter up;
  end_ : Iter up
}.

(** [while (!it.getIsEnd() && !predicate( *it)) ++it;] *)
Fixpoint skipInvalid (fuel : nat) (i : Iter up) : outcome (Iter up) :=
  match fuel with
  | O => OutOfFuel
  | S fuel' =>
      if getIsEnd up i then Value i
      else
        let! x := deref up i in
        if predicate x then Value i
        else
          let! i' := incr up i in
          skipInvalid fuel' i'
  end.

Definition make (fuel : nat) (i e : Iter up) : outcome FilteredIterator :=
  let! i' := skipInvalid fuel i in
  Value {| it := i'; end_ := e |}.

Definition deref (f : FilteredIterator) : outcome T := deref up (it f).

Definition incr (fuel : nat) (f : FilteredIterator) : outcome FilteredIterator :=
  let! i := incr up (it f) in
  let! i' := skipInvalid fuel i in
  Value {| it := i'; end_ := end_ f |}.

Definition neq (a b : FilteredIterator) : outcome bool := neq up (it a) (it b).

Definition getIsEnd (f : FilteredIterator) : bool := getIsEnd up (it f).
End Filtered.
End Filtered.

Definition FilteredDataStream {T : Type} (fuel : nat) (up : DataStream T)
    (predicate : T -> bool) : DataStream T := {|
  Iter := Filtered.FilteredIterator up;
  begin_ptr :=
    (let! b := begin_ptr up in
     let! e := end_ptr up in
     Filtered.make up predicate fuel b e);
  end_ptr :=
    (let! e1 := end_ptr up in
     let! e2 := end_ptr up in
     Filtered.make up predicate fuel e1 e2);
  deref := Filtered.deref up;
  incr := Filtered.incr up predicate fuel;
  neq := Filtered.neq up;
  getIsEnd := Filtered.getIsEnd up
|}.

(** [Filter(predicate)(stream)] *)
Definition Filter {T : Type} (fuel : nat) (predicate : T -> bool)
    (stream : DataStream T) : DataStream T :=
  FilteredDataStream fuel stream predicate.

(** ** [TransformedDataStream<T>] with a pure [transform_func] *)

Module Transformed.
Section Transformed.
Context {T : Type} (up : DataStream T) (transform_func : T -> T).

Record TransformedIterator : Type := {
  it : Iter up;
  end_ : Iter up
}.

(** [return transform_func( *it);] *)
Definition deref (t : TransformedIterator) : outcome T :=
  let! x := deref up (it t) in
  Value (transform_func x).

Definition incr (t : TransformedIterator) : outcome TransformedIterator :=
  let! i := incr up (it t) in
  Value {| it := i; end_ := end_ t |}.

Definition neq (a b : TransformedIterator) : outcome bool := neq up (it a) (it b).

Definition getIsEnd (t : TransformedIterator) : bool := getIsEnd up (it t).
End Transformed.
End Transformed.

Definition TransformedDataStream {T : Type} (up : DataStream T)
    (transform_func : T -> T) : DataStream T := {|
  Iter := Transformed.TransformedIterator up;
  begin_ptr :=
    (let! b := begin_ptr up in
     let! e := end_ptr up in
     Value {| Transformed.it := b; Transformed.end_ := e |});
  end_ptr :=
    (let! e1 := end_ptr up in
     let! e2 := end_ptr up in
     Value {| Transformed.it := e1; Transformed.end_ := e2 |});
  deref := Transformed.deref up transform_func;
  incr := Transformed.incr up;
  neq := Transformed.neq up;
  getIsEnd := Transformed.getIsEnd up
|}.

(** [Transform(func)(stream)] *)
Definition Transform {T : Type} (transform_func : T -> T)
    (stream : DataStream T) : DataStream T :=
  TransformedDataStream stream transform_func.

(** ** [SplitDataStream<T>]

    [std::string] is a list of characters; [delimiters_] is the
    [std::unordered_set<char>] built from the characters of the filter
    string.  [pos_in_line] never leaves [0 .. line.size()], so its
    [size_t] arithmetic cannot wrap and it is kept as a natural number. *)

Definition std_string : Type := list ascii.

Module Split.
Section Split.
Context (up : DataStream std_string) (delimiters_ : gset ascii).

Record SplitIterator : Type := {
  it : Iter up;
  end_ : Iter up;
  current_line : std_string;
  pos_in_line : nat
}.

Definition is_empty (s : std_string) : bool :=
  match s with [] => true | _ => false end.

Definition count (c : ascii) : bool := bool_decide (c ∈ delimiters_).

(** The [for (; pos_in_line < line.size(); ++pos_in_line)] loop, run
    on the characters of [line] from [pos_in_line] on.  The result is
    [(true, pos, cur)] when the loop is left by [return] and
    [(false, pos, cur)] when it runs to [line.size()]. *)
Fixpoint scan (rest : std_string) (pos : nat) (cur : std_string)
    : bool * nat * std_string :=
  match rest with
  | [] => (false, pos, cur)
  | c :: rest' =>
      if count c then
        if negb (is_empty cur) then (true, S pos, cur)
        else scan rest' (S pos) cur
      else scan rest' (S pos) (cur ++ [c])
  end.

(** The [while (!it.getIsEnd())] loop of [skipToNext]. *)
Fixpoint skipToNext_loop (fuel : nat) (i e : Iter up) (pos : nat)
    (cur : std_string) : outcome SplitIterator :=
  match fuel with
  | O => OutOfFuel
  | S fuel' =>
      if getIsEnd up i then
        Value {| it := i; end_ := e; current_line := cur; pos_in_line := pos |}
      else
        let! line := deref up i in
        match scan (drop pos line) pos cur with
        | (true, pos', cur') =>
            Value {| it := i; end_ := e; current_line := cur'; pos_in_line := pos' |}
        | (false, _, cur') =>
            let! i' := incr up i in
            if negb (is_empty cur') then
              Value {| it := i'; end_ := e; current_line := cur'; pos_in_line := 0 |}
            else skipToNext_loop fuel' i' e 0 cur'
        end
  end.

(** [skipToNext]: [current_line.clear();] then the loop. *)
Definition skipToNext (fuel : nat) (s : SplitIterator) : outcome SplitIterator :=
  skipToNext_loop fuel (it s) (end_ s) (pos_in_line s) [].

Definition make (fuel : nat) (i e : Iter up) : outcome SplitIterator :=
  skipToNext fuel {| it := i; end_ := e; current_line := []; pos_in_line := 0 |}.

Definition deref (s : SplitIterator) : outcome std_string := Value (current_line s).

Definition incr (fuel : nat) (s : SplitIterator) : outcome SplitIterator :=
  skipToNext fuel s.

(** [return it != other_ptr->it || !current_line.empty();] *)
Definition neq (a b : SplitIterator) : outcome bool :=
  let! d := neq up (it a) (it b) in
  Value (d || negb (is_empty (current_line a))).

Definition getIsEnd (s : SplitIterator) : bool :=
  getIsEnd up (it s) && is_empty (current_line s).
End Split.
End Split.

Definition SplitDataStream (fuel : nat) (up : DataStream std_string)
    (filter_string : std_string) : DataStream std_string :=
  let delimiters_ : gset ascii := list_to_set filter_string in {|
  Iter := Split.SplitIterator up;
  begin_ptr :=
    (let! b := begin_ptr up in
     let! e := end_ptr up in
     Split.make up delimiters_ fuel b e);
  end_ptr :=
    (let! e1 := end_ptr up in
     let! e2 := end_ptr up in
     Split.make up delimiters_ fuel e1 e2);
  deref := Split.deref up;
  incr := Split.incr up delimiters_ fuel;
  neq := Split.neq up;
  getIsEnd := Split.getIsEnd up
|}.

(** [Split(filter_string)(stream)] *)
Definition Split (fuel : nat) (filter_string : std_string)
    (stream : DataStream std_string) : DataStream std_string :=
  SplitDataStream fuel stream filter_string.

(** ** [AggregateByKeyDataStream]

    The constructor drains the upstream into an [std::unordered_map] and
    a vector of keys.  [Acc_default] is the value-initialised
    accumulator that [operator[]] creates for an absent key. *)

Module Aggregate.
Section Aggregate.
Context {T K Acc : Type} `{Countable K}.
Context (up : DataStream T) (initial_value : Acc)
  (accumulate_func : T -> Acc -> Acc) (key_func : T -> K) (Acc_default : Acc).

(** [aggregation_map[key]] read as a value *)
Definition at_key (m : gmap K Acc) (key : K) : Acc := default Acc_default (m !! key).

(** One turn of the [while (!it.getIsEnd())] body, up to [++it]. *)
Definition absorb (value : T) (st : gmap K Acc * list K) : gmap K Acc * list K :=
  let '(aggregation_map, key_order) := st in
  let key := key_func value in
  let '(m1, order1) :=
    match aggregation_map !! key with
    | None => (<[key := initial_value]> aggregation_map, key_order ++ [key])
    | Some _ => (aggregation_map, key_order)
    end in
  (<[key := accumulate_func value (at_key m1 key)]> m1, order1).

Fixpoint drain (fuel : nat) (i : Iter up) (st : gmap K Acc * list K)
    : outcome (gmap K Acc * list K) :=
  match fuel with
  | O => OutOfFuel
  | S fuel' =>
      if getIsEnd up i then Value st
      else
        let! value := deref up i in
        let st' := absorb value st in
        let! i' := incr up i in
        drain fuel' i' st'
  end.

(** [for (const auto& key : key_order) results_.emplace_back(key, aggregation_map[key]);] *)
Definition emit (st : gmap K Acc * list K) : list (K * Acc) :=
  map (fun key => (key, at_key st.1 key)) st.2.

(** The constructor's value of [results_]. *)
Definition build (fuel : nat) : outcome (list (K * Acc)) :=
  let! b := begin_ptr up in
  let! e := end_ptr up in
  let! st := drain fuel b (∅, []) in
  Value (emit st).

Record Iterator : Type := {
  results_ : list (K * Acc);
  index_ : N
}.

(** [return results_[index_];], an unchecked subscript *)
Definition deref (a : Iterator) : outcome (K * Acc) :=
  match results_ a !! N.to_nat (index_ a) with
  | Some r => Value r
  | None => Undefined
  end.

Definition incr (a : Iterator) : Iterator :=
  {| results_ := results_ a; index_ := size_succ (index_ a) |}.

Definition neq (a b : Iterator) : bool := negb (index_ a =? index_ b).

Definition getIsEnd (a : Iterator) : bool :=
  N.of_nat (length (results_ a)) <=? index_ a.

End Aggregate.
End Aggregate.

(** The stream object once [results_] is known. *)
Definition AggregateResults {K Acc : Type} (results : list (K * Acc))
    : DataStream (K * Acc) := {|
  Iter := Aggregate.Iterator;
  begin_ptr := Value {| Aggregate.results_ := results; Aggregate.index_ := 0 |};
  end_ptr := Value {| Aggregate.results_ := results;
                      Aggregate.index_ := N.of_nat (length results) |};
  deref := Aggregate.deref;
  incr := fun a => Value (Aggregate.incr a);
  neq := fun a b => Value (Aggregate.neq a b);
  getIsEnd := Aggregate.getIsEnd
|}.

(** [AggregateByKey(initial_value, accumulate_func, key_func)(stream)]:
    constructing the stream already consumes the input. *)
Definition AggregateByKey {T K Acc : Type} `{Countable K} (fuel : nat)
    (initial_value : Acc) (accumulate_func : T -> Acc -> Acc) (key_func : T -> K)
    (Acc_default : Acc) (stream : DataStream T) : outcome (DataStream (K * Acc)) :=
  let! results :=
    Aggregate.build stream initial_value accumulate_func key_func Acc_default fuel in
  Value (AggregateResults results).

(** ** [KV<K,V>] and [JoinResult<L,R>] *)

Record KV (K V : Type) : Type := { key : K; value : V }.
Arguments key {K V} _.
Arguments value {K V} _.

Record JoinResult (L R : Type) : Type := {
  left_value : L;
  right_value : option R
}.
Arguments left_value {L R} _.
Arguments right_value {L R} _.
Arguments Build_JoinResult {L R} _ _.

(** ** [JoinedDataStream] and [JoinedWithKeyDataStream]

    The two classes differ only in how keys are read: [( *left_it).key]
    and [kv.key] / [kv.value] in the first, [left_key_func] and
    [right_key_func] (storing the whole right element) in the second.
    The shared body is written once over [left_key], [right_key] and
    [right_value], with the element type [RS] of the right stream kept
    apart from the type [Right] stored in [right_map].  Both classes use
    it at [RS = Right]: the first one stores [kv.value] converted to
    [Right], the second the right element itself. *)

Module Joined.
Section Joined.
Context {Left RS Right K : Type} `{Countable K}.
Context (left_stream : DataStream Left) (right_stream : DataStream RS).
Context (left_key : Left -> K) (right_key : RS -> K) (right_value : RS -> Right).

(** [right_map[k].push_back(v)] *)
Definition push_back (m : gmap K (list Right)) (k : K) (v : Right) : gmap K (list Right) :=
  <[k := default [] (m !! k) ++ [v]]> m.

(** [buildRightMap] *)
Fixpoint buildRightMap_loop (fuel : nat) (i : Iter right_stream)
    (right_map : gmap K (list Right)) : outcome (gmap K (list Right)) :=
  match fuel with
  | O => OutOfFuel
  | S fuel' =>
      if getIsEnd right_stream i then Value right_map
      else
        let! kv := deref right_stream i in
        let right_map' := push_back right_map (right_key kv) (right_value kv) in
        let! i' := incr right_stream i in
        buildRightMap_loop fuel' i' right_map'
  end.

Definition buildRightMap (fuel : nat) : outcome (gmap K (list Right)) :=
  let! b := begin_ptr right_stream in
  let! e := end_ptr right_stream in
  buildRightMap_loop fuel b ∅.

Record Iterator : Type := {
  left_it : Iter left_stream;
  left_end : Iter left_stream;
  current_rights : list Right;
  current_right_index : N
}.

Definition is_empty (l : list Right) : bool :=
  match l with [] => true | _ => false end.

(** [advanceToNextValid]: both branches of the loop body return, so the
    [while] runs its body at most once. *)
Definition advanceToNextValid (right_map : gmap K (list Right)) (j : Iterator)
    : outcome Iterator :=
  if getIsEnd left_stream (left_it j) then Value j
  else
    let! l := deref left_stream (left_it j) in
    match right_map !! left_key l with
    | Some rights =>
        Value {| left_it := left_it j; left_end := left_end j;
                 current_rights := rights;
                 current_right_index := current_right_index j |}
    | None =>
        Value {| left_it := left_it j; left_end := left_end j;
                 current_rights := [];
                 current_right_index := current_right_index j |}
    end.

Definition make (right_map : gmap K (list Right)) (i e : Iter left_stream)
    : outcome Iterator :=
  advanceToNextValid right_map
    {| left_it := i; left_end := e; current_rights := []; current_right_index := 0 |}.

Definition deref (j : Iterator) : outcome (JoinResult Left Right) :=
  if is_empty (current_rights j) then
    let! l := deref left_stream (left_it j) in
    Value (Build_JoinResult l None)
  else
    let! l := deref left_stream (left_it j) in
    match current_rights j !! N.to_nat (current_right_index j) with
    | Some r => Value (Build_JoinResult l (Some r))
    | None => Undefined
    end.

Definition next_left (right_map : gmap K (list Right)) (j : Iterator)
    : outcome Iterator :=
  let! i := incr left_stream (left_it j) in
  advanceToNextValid right_map
    {| left_it := i; left_end := left_end j;
       current_rights := current_rights j; current_right_index := 0 |}.

Definition incr (right_map : gmap K (list Right)) (j : Iterator) : outcome Iterator :=
  if negb (is_empty (current_rights j)) then
    let idx := size_succ (current_right_index j) in
    if idx <? N.of_nat (length (current_rights j)) then
      Value {| left_it := left_it j; left_end := left_end j;
               current_rights := current_rights j; current_right_index := idx |}
    else next_left right_map j
  else next_left right_map j.

(** [return left_it != other_ptr->left_it ||
           current_right_index != other_ptr->current_right_index;] *)
Definition neq (a b : Iterator) : outcome bool :=
  let! d := neq left_stream (left_it a) (left_it b) in
  if d : bool then Value true
  else Value (negb (current_right_index a =? current_right_index b)).

Definition getIsEnd (j : Iterator) : bool := getIsEnd left_stream (left_it j).

End Joined.
End Joined.

(** The joined stream once [right_map] is built. *)
Definition JoinedWith {Left Right K : Type} `{Countable K}
    (left_stream : DataStream Left) (left_key : Left -> K)
    (right_map : gmap K (list Right)) : DataStream (JoinResult Left Right) := {|
  Iter := Joined.Iterator left_stream;
  begin_ptr :=
    (let! b := begin_ptr left_stream in
     let! e := end_ptr left_stream in
     Joined.make left_stream left_key right_map b e);
  end_ptr :=
    (let! e1 := end_ptr left_stream in
     let! e2 := end_ptr left_stream in
     Joined.make left_stream left_key right_map e1 e2);
  deref := Joined.deref left_stream;
  incr := Joined.incr left_stream left_key right_map;
  neq := Joined.neq left_stream;
  getIsEnd := Joined.getIsEnd left_stream
|}.

(** The stream's constructor runs [buildRightMap]. *)
Definition Joined_construct {Left RS Right K : Type} `{Countable K} (fuel : nat)
    (left_stream : DataStream Left) (right_stream : DataStream RS)
    (left_key : Left -> K) (right_key : RS -> K) (right_value : RS -> Right)
    : outcome (DataStream (JoinResult Left Right)) :=
  let! right_map := Joined.buildRightMap right_stream right_key right_value fuel in
  Value (JoinedWith left_stream left_key right_map).

(** [JoinedDataStream<Left, Right>(left, right)].  The right stream has
    the element type [Right] that [right_map] stores.  [left_key] is the
    member [key] of a left element, [right_key] the member [key] of a
    right element, and [right_value] its member [value] converted to
    [Right], as [push_back(kv.value)] on a [std::vector<Right>] requires. *)
Definition JoinedDataStream {Left Right K : Type} `{Countable K} (fuel : nat)
    (left_key : Left -> K) (right_key : Right -> K) (right_value : Right -> Right)
    (left : DataStream Left) (right : DataStream Right)
    : outcome (DataStream (JoinResult Left Right)) :=
  Joined_construct fuel left right left_key right_key right_value.

(** [JoinedWithKeyDataStream(left, right, left_key_func, right_key_func)] *)
Definition JoinedWithKeyDataStream {L R K : Type} `{Countable K} (fuel : nat)
    (left : DataStream L) (right : DataStream R)
    (left_key_func : L -> K) (right_key_func : R -> K)
    : outcome (DataStream (JoinResult L R)) :=
  Joined_construct fuel left right left_key_func right_key_func (fun r => r).

(** ** [Join(right, lkey, rkey)]

    This overload fills an [std::unordered_multimap] and reads it back
    with [equal_range].  The container keeps equivalent keys adjacent but
    the language standard does not say where [emplace] puts a new element
    among the equivalent ones: libc++ appends it after them, libstdc++
    links it in front of them.  Only the relative order of equal keys is
    observable through [equal_range], so the multimap is a list of
    entries and the library's choice is a parameter. *)

Inductive emplace_policy : Type :=
| AfterEquivalent
| BeforeEquivalent.

Module KeyJoin.
Section KeyJoin.
Context {L R K : Type} `{EqDecision K}.
Context (policy : emplace_policy).
Context (left : DataStream L) (right : DataStream R).
Context (lkey : L -> K) (rkey : R -> K).

Definition emplace (k : K) (v : R) (m : list (K * R)) : list (K * R) :=
  match policy with
  | AfterEquivalent => m ++ [(k, v)]
  | BeforeEquivalent => (k, v) :: m
  end.

Definition equal_range (k : K) (m : list (K * R)) : list R :=
  map snd (filter (fun e => e.1 = k) m).

(** [while (rit != right->end()) { ... right_map.emplace(rkey(val), val); ++rit; }] *)
Fixpoint fill (fuel : nat) (rit : Iter right) (right_map : list (K * R))
    : outcome (list (K * R)) :=
  match fuel with
  | O => OutOfFuel
  | S fuel' =>
      let! e := end_ptr right in
      let! b := neq right rit e in
      if b : bool then
        let! val := deref right rit in
        let right_map' := emplace (rkey val) val right_map in
        let! rit' := incr right rit in
        fill fuel' rit' right_map'
      else Value right_map
  end.

(** The rows added for one left value. *)
Definition rows_for (right_map : list (K * R)) (lval : L) : list (JoinResult L R) :=
  match equal_range (lkey lval) right_map with
  | [] => [Build_JoinResult lval None]
  | range => map (fun r => Build_JoinResult lval (Some r)) range
  end.

(** [while (lit != left->end()) { ... ++lit; }] *)
Fixpoint emit (fuel : nat) (right_map : list (K * R)) (lit : Iter left)
    (result : list (JoinResult L R)) : outcome (list (JoinResult L R)) :=
  match fuel with
  | O => OutOfFuel
  | S fuel' =>
      let! e := end_ptr left in
      let! b := neq left lit e in
      if b : bool then
        let! lval := deref left lit in
        let result' := result ++ rows_for right_map lval in
        let! lit' := incr left lit in
        emit fuel' right_map lit' result'
      else Value result
  end.

Definition rows (fuel : nat) : outcome (list (JoinResult L R)) :=
  let! rit := begin_ptr right in
  let! right_map := fill fuel rit [] in
  let! lit := begin_ptr left in
  emit fuel right_map lit [].
End KeyJoin.
End KeyJoin.

Definition Join {L R K : Type} `{EqDecision K} (policy : emplace_policy) (fuel : nat)
    (right : DataStream R) (lkey : L -> K) (rkey : R -> K) (left : DataStream L)
    : outcome (DataStream (JoinResult L R)) :=
  let! result := KeyJoin.rows policy left right lkey rkey fuel in
  Value (VectorDataStream result).

(** ** [DirStream]

    The directory walk is the standard library's.  It is given by
    whether the path exists and by the entries the walk visits, in the
    order it visits them, each with the answer of [fs::is_regular_file]. *)

Module Dir.
Section Dir.
Context {Path : Type}.

Record DirIterator : Type := {
  iterator : list (Path * bool);
  recursive : bool;
  is_end : bool
}.

(** [skip_non_regular_files] *)
Fixpoint skip_non_regular_files (entries : list (Path * bool)) (r e : bool)
    : DirIterator :=
  match entries with
  | [] => {| iterator := []; recursive := r; is_end := true |}
  | (p, regular) :: rest =>
      if regular then {| iterator := entries; recursive := r; is_end := e |}
      else skip_non_regular_files rest r e
  end.

Definition make (entries : list (Path * bool)) (r : bool) : DirIterator :=
  skip_non_regular_files entries r false.

(** [DirIterator()]: an empty variant, [recursive] without initialiser *)
Definition make_end : DirIterator :=
  {| iterator := []; recursive := false; is_end := true |}.

(** [operator*] reads the library iterator without looking at [is_end]. *)
Definition deref (d : DirIterator) : outcome Path :=
  match iterator d with
  | (p, _) :: _ => Value p
  | [] => Undefined
  end.

Definition incr (d : DirIterator) : outcome DirIterator :=
  match iterator d with
  | _ :: rest => Value (skip_non_regular_files rest (recursive d) (is_end d))
  | [] => Undefined
  end.

Definition neq (a b : DirIterator) : bool :=
  if is_end a && is_end b then false
  else if negb (eqb (is_end a) (is_end b)) then true
  else negb (eqb (recursive a) (recursive b)).

Definition getIsEnd (d : DirIterator) : bool := is_end d.
End Dir.
Arguments DirIterator : clear implicits.
End Dir.

Definition DirStream {Path : Type} (entries : list (Path * bool)) (recursive : bool)
    : DataStream Path := {|
  Iter := Dir.DirIterator Path;
  begin_ptr := Value (Dir.make entries recursive);
  end_ptr := Value Dir.make_end;
  deref := Dir.deref;
  incr := Dir.incr;
  neq := fun a b => Value (Dir.neq a b);
  getIsEnd := Dir.getIsEnd
|}.

(** [Dir(path, recursive)]: the constructor throws when the path does
    not exist. *)
Definition Dir_ {Path : Type} (path_exists : bool) (entries : list (Path * bool))
    (recursive : bool) : outcome (DataStream Path) :=
  if path_exists then Value (DirStream entries recursive) else Throws.

(** ** [FileContentStream]

    Files are the standard library's.  [files p] is [None] when
    [std::ifstream(p)] fails to open and otherwise the lines that
    successive [std::getline] calls on the fresh stream return. *)

Module File.
Section File.
Context {Path : Type} (files : Path -> option (list std_string)).
Context (up : DataStream Path).

(** An open [std::ifstream]: the lines not read yet and the fail bit. *)
Record ifstream : Type := {
  unread : list std_string;
  failbit : bool
}.

Definition open (p : Path) : ifstream :=
  match files p with
  | Some ls => {| unread := ls; failbit := false |}
  | None => {| unread := []; failbit := true |}
  end.

(** [std::getline(f, line)]: the stream afterwards, the line
    afterwards, and the stream's truth value. *)
Definition getline (f : ifstream) (line : std_string) : ifstream * std_string * bool :=
  if failbit f then (f, line, false)
  else
    match unread f with
    | l :: ls => ({| unread := ls; failbit := false |}, l, true)
    | [] => ({| unread := []; failbit := true |}, [], false)
    end.

(** [path_it], [path_end] and [current_file] are [std::unique_ptr]s,
    [None] when null.  [opened] is not a member of the class: it records
    the paths handed to [std::ifstream] so far. *)
Record FileIterator : Type := {
  path_it : option (Iter up);
  path_end : option (Iter up);
  current_file : option ifstream;
  current_line : std_string;
  is_end : bool;
  opened : list Path
}.

Definition is_empty (s : std_string) : bool :=
  match s with [] => true | _ => false end.

(** [*path_it != *path_end].  The constructor used by [begin_ptr]
    never sets [path_end]; every cursor class of the header answers
    [!=] against a null operand with [true] (the
    [if (!other_ptr) return true;] guard), so that is the value of the
    loop condition then. *)
Definition differs_from_end (i : Iter up) (e : option (Iter up)) : outcome bool :=
  match e with
  | Some e' => neq up i e'
  | None => Value true
  end.

(** The [while] loop of [open_next_file], entered with
    [current_line] cleared.  Every way out of the loop assigns
    [is_end], so its value on entry is not carried along. *)
Fixpoint open_next_file_loop (fuel : nat) (i : Iter up) (e : option (Iter up))
    (log : list Path) : outcome FileIterator :=
  let finish i log :=
    {| path_it := Some i; path_end := e; current_file := None;
       current_line := []; is_end := true; opened := log |} in
  match fuel with
  | O => OutOfFuel
  | S fuel' =>
      if getIsEnd up i then Value (finish i log)
      else
        let! d := differs_from_end i e in
        if d : bool then
          let! file_path := deref up i in
          let f := open file_path in
          let log' := log ++ [file_path] in
          if negb (failbit f) then
            let! i1 := incr up i in
            match getline f [] with
            | (f', line, true) =>
                if negb (is_empty line) then
                  Value {| path_it := Some i1; path_end := e;
                           current_file := Some f'; current_line := line;
                           is_end := false; opened := log' |}
                else
                  let! i2 := incr up i1 in
                  open_next_file_loop fuel' i2 e log'
            | (_, _, false) =>
                let! i2 := incr up i1 in
                open_next_file_loop fuel' i2 e log'
            end
          else
            let! i1 := incr up i in
            open_next_file_loop fuel' i1 e log'
        else Value (finish i log)
  end.

Definition open_next_file (fuel : nat) (f : FileIterator) : outcome FileIterator :=
  match path_it f with
  | Some i => open_next_file_loop fuel i (path_end f) (opened f)
  | None => Undefined
  end.

(** [FileIterator(std::unique_ptr<...>&& path_it)].  The initialiser of
    [is_end] is overwritten by [open_next_file] on every path through
    it, so a non-null [path_it] starts from [false] here. *)
Definition make (fuel : nat) (i : option (Iter up)) : outcome FileIterator :=
  match i with
  | Some _ =>
      open_next_file fuel
        {| path_it := i; path_end := None; current_file := None;
           current_line := []; is_end := false; opened := [] |}
  | None =>
      Value {| path_it := None; path_end := None; current_file := None;
               current_line := []; is_end := true; opened := [] |}
  end.

(** [operator*] *)
Definition deref (f : FileIterator) : outcome std_string :=
  if is_end f then Throws
  else
    match current_file f with
    | None => Throws
    | Some s => if failbit s then Throws else Value (current_line f)
    end.

(** [operator++] *)
Definition incr (fuel : nat) (f : FileIterator) : outcome FileIterator :=
  if is_end f then Value f
  else
    match current_file f with
    | None => Undefined
    | Some s =>
        match getline s (current_line f) with
        | (s', line, true) =>
            Value {| path_it := path_it f; path_end := path_end f;
                     current_file := Some s'; current_line := line;
                     is_end := is_end f; opened := opened f |}
        | (_, _, false) =>
            open_next_file fuel
              {| path_it := path_it f; path_end := path_end f;
                 current_file := None; current_line := [];
                 is_end := is_end f; opened := opened f |}
        end
    end.

(** [operator!=].  Two [unique_ptr]s are equal only when both are null;
    the last comparison then reads through the null [current_file]. *)
Definition neq (a b : FileIterator) : outcome bool :=
  if is_end a && is_end b then Value false
  else
    match path_it a, path_it b with
    | None, None => Undefined
    | _, _ => Value true
    end.

Definition getIsEnd (f : FileIterator) : bool := is_end f.
End File.
End File.

Definition FileContentStream {Path : Type} (fuel : nat)
    (files : Path -> option (list std_string)) (path_stream : DataStream Path)
    : DataStream std_string := {|
  Iter := File.FileIterator path_stream;
  begin_ptr :=
    (let! b := begin_ptr path_stream in
     File.make files path_stream fuel (Some b));
  end_ptr := File.make files path_stream fuel None;
  deref := File.deref path_stream;
  incr := File.incr files path_stream fuel;
  neq := File.neq path_stream;
  getIsEnd := File.getIsEnd path_stream
|}.

(** [OpenFiles()(stream)] *)
Definition OpenFiles {Path : Type} (fuel : nat)
    (files : Path -> option (list std_string)) (stream : DataStream Path)
    : DataStream std_string :=
  FileContentStream fuel files stream.

(** ** A [transform_func] with side effects

    The tests pass lambdas that update captured variables.  Such a
    function is a state transformer over the captured environment [E].
    The world threaded through a run also keeps a journal of the calls
    of [transform_func] and of the [push_back]s of [AsVector], in the
    order in which they happen. *)

Module Effectful.
Section Effectful.
Context {T E : Type}.

Inductive event : Type :=
| Invoked (x : T)
| Pushed (y : T).

Record world : Type := {
  env : E;
  journal : list event
}.

Context (up : DataStream T) (transform_func : T -> E -> T * E).

(** [TransformedIterator::operator*]: [return transform_func( *it);] *)
Definition deref (t : Transformed.TransformedIterator up) (w : world)
    : outcome (T * world) :=
  let! x := deref up (Transformed.it up t) in
  let '(y, e') := transform_func x (env w) in
  Value (y, {| env := e'; journal := journal w ++ [Invoked x] |}).

(** The loop of [AsVector] over the transformed stream. *)
Fixpoint AsVector_loop (fuel : nat) (t e : Transformed.TransformedIterator up)
    (result : list T) (w : world) : outcome (list T * world) :=
  match fuel with
  | O => OutOfFuel
  | S fuel' =>
      let! b := Transformed.neq up t e in
      if b : bool then
        let! yw := deref t w in
        let '(y, w1) := yw in
        let w2 := {| env := env w1; journal := journal w1 ++ [Pushed y] |} in
        let! t' := Transformed.incr up t in
        AsVector_loop fuel' t' e (result ++ [y]) w2
      else Value (result, w)
  end.

(** [stream | Transform(f) | AsVector()] started in environment [e0] *)
Definition collect (fuel : nat) (e0 : E) : outcome (list T * world) :=
  let! b := begin_ptr up in
  let! e := end_ptr up in
  let! e1 := end_ptr up in
  let! e2 := end_ptr up in
  AsVector_loop fuel
    {| Transformed.it := b; Transformed.end_ := e |}
    {| Transformed.it := e1; Transformed.end_ := e2 |}
    [] {| env := e0; journal := [] |}.
End Effectful.
Arguments event : clear implicits.
Arguments world : clear implicits.
End Effectful.

(** What the specification promises for a side-effecting transform:
    the outputs, the final environment, and the journal in which every
    call for an element is directly followed by the emission of its
    result. *)
Fixpoint transform_in_order {T E : Type} (f : T -> E -> T * E) (xs : list T) (e : E)
    : list T * E * list (Effectful.event T) :=
  match xs with
  | [] => ([], e, [])
  | x :: xs' =>
      let '(y, e1) := f x e in
      let '(ys, e2, j) := transform_in_order f xs' e1 in
      (y :: ys, e2, Effectful.Invoked x :: Effectful.Pushed y :: j)
  end.

(** What the specification asks of the tokenizer on one text element:
    the maximal non-empty runs of characters outside the delimiter set.
    [cur] is the run in progress. *)
Fixpoint tokens_from (D : gset ascii) (cur : std_string) (line : std_string)
    : list std_string :=
  match line with
  | [] => if Split.is_empty cur then [] else [cur]
  | c :: rest =>
      if bool_decide (c ∈ D) then
        if Split.is_empty cur then tokens_from D [] rest
        else cur :: tokens_from D [] rest
      else tokens_from D (cur ++ [c]) rest
  end.

Definition tokens (D : gset ascii) (line : std_string) : list std_string :=
  tokens_from D [] line.

(** No gluing: the tokens of a stream are the tokens of its first
    element, then those of its second, and so on. *)
Definition tokens_of_elements (D : gset ascii) (xs : list std_string) : list std_string :=
  flat_map (tokens D) xs.

(** The tokens still to come when the scan stands at position [pos] of
    the first of the upstream elements [ls]. *)
Definition tokens_pending (D : gset ascii) (ls : list std_string) (pos : nat)
    : list std_string :=
  match ls with
  | [] => []
  | line :: rest => tokens D (drop pos line) ++ tokens_of_elements D rest
  end.

(** The distinct keys of [ks] in the order of their first occurrence;
    [seen] holds the keys met before [ks]. *)
Fixpoint first_occurrences {K : Type} `{EqDecision K} (seen ks : list K) : list K :=
  match ks with
  | [] => []
  | k :: ks' =>
      if decide (k ∈ seen) then first_occurrences seen ks'
      else k :: first_occurrences (k :: seen) ks'
  end.

(** The accumulator of key [k]: the initial value updated with the
    elements of that key, in input order. *)
Definition accumulated {T K Acc : Type} `{EqDecision K} (initial_value : Acc)
    (accumulate_func : T -> Acc -> Acc) (key_func : T -> K) (xs : list T) (k : K) : Acc :=
  foldl (fun a x => accumulate_func x a) initial_value
    (filter (fun x => key_func x = k) xs).

(** What the map and the key list of the aggregation hold after the
    elements [seen]. *)
Definition drained {T K Acc : Type} `{Countable K} (initial_value : Acc)
    (accumulate_func : T -> Acc -> Acc) (key_func : T -> K)
    (seen : list T) (st : gmap K Acc * list K) : Prop :=
  st.2 = first_occurrences [] (map key_func seen) /\
  forall k, st.1 !! k
            = if decide (k ∈ map key_func seen)
              then Some (accumulated initial_value accumulate_func key_func seen k)
              else None.

(** The rows the specification asks of a left-outer join for one left
    element, given its right matches in the order they are to appear. *)
Definition join_rows {L R : Type} (l : L) (rights : list R) : list (JoinResult L R) :=
  match rights with
  | [] => [Build_JoinResult l None]
  | _ => map (fun r => Build_JoinResult l (Some r)) rights
  end.

(** The right values stored for key [k], in the right stream's order. *)
Definition matches {RS R K : Type} `{EqDecision K} (right_key : RS -> K)
    (right_value : RS -> R) (rs : list RS) (k : K) : list R :=
  map right_value (filter (fun r => right_key r = k) rs).

(** [for each left l in order { for each right-match r in insertion order }] *)
Definition left_outer_join {L RS R K : Type} `{EqDecision K} (left_key : L -> K)
    (right_key : RS -> K) (right_value : RS -> R) (ls : list L) (rs : list RS)
    : list (JoinResult L R) :=
  flat_map (fun l => join_rows l (matches right_key right_value rs (left_key l))) ls.

(** The order in which [equal_range] lists the values of one key under
    each placement of equivalent keys. *)
Definition equal_range_order {R : Type} (policy : emplace_policy) (ms : list R) : list R :=
  match policy with
  | AfterEquivalent => ms
  | BeforeEquivalent => rev ms
  end.

(** The left-outer shape of the rows of one left element [l] with [k]
    right matches: [max 1 k] rows, all carrying [l]; the single row for
    [k = 0] has no right value, the rows for [k > 0] all have one. *)
Definition left_outer_group {L R : Type} (l : L) (k : nat)
    (g : list (JoinResult L R)) : Prop :=
  length g = Nat.max 1 k /\
  Forall (fun row => left_value row = l) g /\
  (k = 0%nat -> g = [Build_JoinResult l None]) /\
  ((0 < k)%nat -> Forall (fun row => is_Some (right_value row)) g).

(** The number of right elements whose key is [k]. *)
Definition match_count {RS K : Type} `{EqDecision K} (right_key : RS -> K)
    (rs : list RS) (k : K) : nat :=
  length (filter (fun r => right_key r = k) rs).

(** ** The stream contract

    [Run s e i xs]: driven the way every sink and adapter of the header
    drives a cursor (test the end, read, advance), cursor [i] of stream
    [s] yields exactly [xs] and then reports its end, both through
    [getIsEnd] and through [!=] against the end cursor [e]. *)

Inductive Run {T : Type} (s : DataStream T) (e : Iter s) : Iter s -> list T -> Prop :=
| Run_end i :
    getIsEnd s i = true ->
    neq s i e = Value false ->
    Run s e i []
| Run_step i x i' xs :
    getIsEnd s i = false ->
    neq s i e = Value true ->
    deref s i = Value x ->
    incr s i = Value i' ->
    Run s e i' xs ->
    Run s e i (x :: xs).

Definition Emits {T : Type} (s : DataStream T) (xs : list T) : Prop :=
  exists b e,
    begin_ptr s = Value b /\ end_ptr s = Value e /\
    getIsEnd s e = true /\ Run s e b xs.

(** The cursor reached from [i] by [n] calls of [operator++]. *)
Definition advance {T : Type} (s : DataStream T) (n : N) (i : Iter s) : outcome (Iter s) :=
  N.iter n (fun o => obind o (incr s)) (Value i).

(** One step of end monotonicity: advancing a cursor that reports its
    end gives a cursor that reports its end. *)
Definition EndSticky {T : Type} (s : DataStream T) : Prop :=
  forall i i', getIsEnd s i = true -> incr s i = Value i' -> getIsEnd s i' = true.

(** End monotonicity from cursor [i]: once a cursor reached from [i]
    reports its end, so does every cursor reached later. *)
Definition EndStaysFrom {T : Type} (s : DataStream T) (i : Iter s) : Prop :=
  forall n m j k,
    advance s n i = Value j ->
    advance s m j = Value k ->
    getIsEnd s j = true -> getIsEnd s k = true.

(** ** [DropNullopt]

    [Filter] with the predicate [value.has_value()]. *)

Definition has_value {T : Type} (v : option T) : bool :=
  match v with Some _ => true | None => false end.

Definition DropNullopt {T : Type} (fuel : nat) (stream : DataStream (option T))
    : DataStream (option T) :=
  Filter fuel has_value stream.

(** ** [Write] and [Out]

    The output stream is the text written to it so far; [show] is the
    [operator<<] of the element type. *)

Fixpoint Write_loop {T : Type} (show : T -> std_string) (delimiter : ascii)
    (fuel : nat) (s : DataStream T) (it e : Iter s) (output : std_string)
    : outcome std_string :=
  match fuel with
  | O => OutOfFuel
  | S fuel' =>
      let! b := neq s it e in
      if b : bool then
        let! x := deref s it in
        let output' := output ++ show x ++ [delimiter] in
        let! it' := incr s it in
        Write_loop show delimiter fuel' s it' e output'
      else Value output
  end.

(** [Write(output, delimiter)(stream)] *)
Definition Write {T : Type} (show : T -> std_string) (delimiter : ascii)
    (fuel : nat) (output : std_string) (stream : DataStream T) : outcome std_string :=
  let! it := begin_ptr stream in
  let! e := end_ptr stream in
  Write_loop show delimiter fuel stream it e output.

Fixpoint Out_loop {T : Type} (show : T -> std_string)
    (fuel : nat) (s : DataStream T) (it e : Iter s) (os : std_string)
    : outcome std_string :=
  match fuel with
  | O => OutOfFuel
  | S fuel' =>
      let! b := neq s it e in
      if b : bool then
        let! x := deref s it in
        let os' := os ++ show x ++ [ascii_of_nat 10] in
        let! it' := incr s it in
        Out_loop show fuel' s it' e os'
      else Value os
  end.

(** [Out(os)(stream)] *)
Definition Out {T : Type} (show : T -> std_string) (fuel : nat) (os : std_string)
    (stream : DataStream T) : outcome std_string :=
  let! it := begin_ptr stream in
  let! e := end_ptr stream in
  Out_loop show fuel stream it e os.

(** ** [SplitExpected]

    [std::expected<T, E>] holds either a value or an error.
    [SplitExpectedDataStream::split] has the same body. *)

Inductive expected (T E : Type) : Type :=
| expected_value (v : T)
| unexpected (e : E).
Arguments expected_value {T E} v.
Arguments unexpected {T E} e.

Record SplitExpectedResult (T E : Type) : Type := {
  unexpected_stream : DataStream E;
  expected_stream : DataStream T
}.
Arguments unexpected_stream {T E} _.
Arguments expected_stream {T E} _.

(** [while (!it.getIsEnd())]: the two vectors grow by [add]. *)
Fixpoint SplitExpected_loop {T E : Type} (fuel : nat) (s : DataStream (expected T E))
    (it : Iter s) (unexpected_data : list E) (expected_data : list T)
    : outcome (list E * list T) :=
  match fuel with
  | O => OutOfFuel
  | S fuel' =>
      if getIsEnd s it then Value (unexpected_data, expected_data)
      else
        let! v := deref s it in
        let '(u, x) :=
          match v with
          | expected_value t => (unexpected_data, expected_data ++ [t])
          | unexpected err => (unexpected_data ++ [err], expected_data)
          end in
        let! it' := incr s it in
        SplitExpected_loop fuel' s it' u x
  end.

Definition SplitExpected {T E : Type} (fuel : nat) (stream : DataStream (expected T E))
    : outcome (SplitExpectedResult T E) :=
  let! it := begin_ptr stream in
  let! e := end_ptr stream in
  let! ux := SplitExpected_loop fuel stream it [] [] in
  Value {| unexpected_stream := VectorDataStream ux.1;
           expected_stream := VectorDataStream ux.2 |}.

(** The errors and the values of a list of results, each in input order. *)
Definition errors_of {T E : Type} (xs : list (expected T E)) : list E :=
  flat_map (fun v => match v with unexpected e => [e] | expected_value _ => [] end) xs.

Definition values_of {T E : Type} (xs : list (expected T E)) : list T :=
  flat_map (fun v => match v with expected_value t => [t] | unexpected _ => [] end) xs.

(** The regular files among directory entries, in visiting order. *)
Definition regular_files {Path : Type} (entries : list (Path * bool)) : list Path :=
  map fst (List.filter snd entries).

(** The lines of the file at [p]; none when it cannot be opened. *)
Definition file_lines {Path : Type} (files : Path -> option (list std_string))
    (p : Path) : list std_string :=
  default [] (files p).

(** Every path of [ps] that opens names a file whose first line exists
    and is not empty. *)
Definition first_lines_present {Path : Type} (files : Path -> option (list std_string))
    (ps : list Path) : Prop :=
  Forall (fun p => forall ls, files p = Some ls ->
                     exists l rest, ls = l :: rest /\ l <> []) ps.

(** The file cursor [f] stands on the first of the lines [out] still
    to be emitted: its current line, then the unread lines of the open
    file, then the lines of the paths [ps'] the path cursor has yet to
    yield; with nothing left to emit the cursor is at its end. *)
Definition reading {Path : Type} (files : Path -> option (list std_string))
    (up : DataStream Path) (e : Iter up) (fuel : nat) (f : File.FileIterator up)
    (out : list std_string) : Prop :=
  File.path_end up f = None /\
  match out with
  | [] => File.is_end up f = true
  | l :: out' =>
      File.is_end up f = false /\
      File.current_line up f = l /\
      exists i' ps' rest,
        File.path_it up f = Some i' /\
        File.current_file up f
        = Some {| File.unread := rest; File.failbit := false |} /\
        Run up e i' ps' /\
        first_lines_present files ps' /\
        (length ps' < fuel)%nat /\
        out' = rest ++ flat_map (file_lines files) ps'
  end.

(** The paths [open_next_file] hands to [std::ifstream] when it looks
    for the next file among [ps]: each path in turn, up to and including
    the first that opens. *)
Fixpoint tried {Path : Type} (files : Path -> option (list std_string))
    (ps : list Path) : list Path :=
  match ps with
  | [] => []
  | p :: ps' =>
      match files p with
      | Some _ => [p]
      | None => p :: tried files ps'
      end
  end.

(** ** [Join(right, lkey, rkey)] with the placement left open

    The same overload once more, with the library's [emplace] as a
    parameter: [place k v m] is the content of the multimap [m] after
    [emplace(k, v)].  All the language standard promises is that the
    container then holds the new entry together with the old ones. *)

Definition placement (K R : Type) : Type := K -> R -> list (K * R) -> list (K * R).

Definition keeps_entries {K R : Type} (place : placement K R) : Prop :=
  forall k v m, place k v m ≡ₚ (k, v) :: m.

Fixpoint fill_placed {R K : Type} (place : placement K R) (right : DataStream R)
    (rkey : R -> K) (fuel : nat) (rit : Iter right) (right_map : list (K * R))
    : outcome (list (K * R)) :=
  match fuel with
  | O => OutOfFuel
  | S fuel' =>
      let! e := end_ptr right in
      let! b := neq right rit e in
      if b : bool then
        let! val := deref right rit in
        let right_map' := place (rkey val) val right_map in
        let! rit' := incr right rit in
        fill_placed place right rkey fuel' rit' right_map'
      else Value right_map
  end.

Definition Join_placed {L R K : Type} `{EqDecision K} (place : placement K R)
    (fuel : nat) (right : DataStream R) (lkey : L -> K) (rkey : R -> K)
    (left : DataStream L) : outcome (DataStream (JoinResult L R)) :=
  let! rit := begin_ptr right in
  let! right_map := fill_placed place right rkey fuel rit [] in
  let! lit := begin_ptr left in
  let! result := KeyJoin.emit left lkey fuel right_map lit [] in
  Value (VectorDataStream result).

(** * Properties *)

Lemma obind_Value {A B : Type} (m : outcome A) (k : A -> outcome B) (b : B) :
  obind m k = Value b -> exists a, m = Value a /\ k a = Value b.
Proof. destruct m; simpl; try discriminate. eauto. Qed.

Lemma size_succ_small (i : N) : i + 1 < size_max -> size_succ i = i + 1.
Proof. intros Hlt. unfold size_succ. by apply N.mod_small. Qed.

(** ** [AsVector] collects what the cursor yields *)

Lemma AsVector_loop_Run {T : Type} (s : DataStream T) (e i : Iter s) (xs : list T) :
  Run s e i xs ->
  forall (fuel : nat) (acc : list T),
    (length xs < fuel)%nat ->
    AsVector_loop fuel s i e acc = Value (acc ++ xs).
Proof.
  induction 1 as [i Hend Hneq | i x i' xs Hend Hneq Hd Hi Hrun IH];
    intros fuel acc Hfuel.
  - destruct fuel as [|fuel]; [simpl in Hfuel; lia|].
    simpl. rewrite Hneq. simpl. by rewrite app_nil_r.
  - destruct fuel as [|fuel]; [simpl in Hfuel; lia|].
    simpl. rewrite Hneq. simpl. rewrite Hd. simpl. rewrite Hi. simpl.
    rewrite IH; [|simpl in Hfuel; lia].
    by rewrite <- app_assoc.
Qed.

Lemma AsVector_Emits {T : Type} (s : DataStream T) (xs : list T) (fuel : nat) :
  Emits s xs -> (length xs < fuel)%nat -> AsVector fuel s = Value xs.
Proof.
  intros (b & e & Hb & He & _ & Hrun) Hfuel.
  unfold AsVector. rewrite Hb, He. simpl.
  by rewrite (AsVector_loop_Run s e b xs Hrun fuel []).
Qed.

(** ** The in-memory source *)

Section VectorFacts.
Context {T : Type} (d : list T).
Hypothesis d_fits : N.of_nat (length d) < size_max.

Lemma Vector_Run_from (l : list T) :
  l <> [] ->
  forall n : nat, drop n d = l ->
    Run (VectorDataStream d) Vector.make_end
      {| Vector.data := Some d; Vector.index := N.of_nat n; Vector.is_end := false |} l.
Proof using d_fits.
  induction l as [|x l IH]; [done|].
  intros _ n Hdrop.
  assert (Hx : d !! n = Some x).
  { rewrite <- (Nat.add_0_r n), <- lookup_drop, Hdrop. done. }
  assert (Hn : (n < length d)%nat) by (by eapply lookup_lt_Some).
  assert (Hdrop' : drop (S n) d = l).
  { replace (S n) with (1 + n)%nat by lia.
    rewrite Nat.add_comm, <- drop_drop, Hdrop. done. }
  assert (Hsucc : size_succ (N.of_nat n) = N.of_nat (S n)).
  { rewrite size_succ_small; lia. }
  eapply Run_step with (i' := Vector.incr _).
  - done.
  - done.
  - simpl. unfold Vector.deref. simpl. rewrite Nat2N.id, Hx. done.
  - done.
  - unfold Vector.incr. simpl. rewrite Hsucc.
    destruct l as [|y l'].
    + assert (Hlen : length d = S n).
      { apply (f_equal length) in Hdrop'. rewrite length_drop in Hdrop'.
        simpl in Hdrop'. lia. }
      rewrite Hlen, N.leb_refl. by apply Run_end.
    + assert (Hlen : (S n < length d)%nat).
      { apply (f_equal length) in Hdrop'. rewrite length_drop in Hdrop'.
        simpl in Hdrop'. lia. }
      destruct (N.leb_spec (N.of_nat (length d)) (N.of_nat (S n))) as [Hle|_]; [lia|].
      by apply IH.
Qed.

Lemma Vector_Emits : d <> [] -> Emits (VectorDataStream d) d.
Proof using d_fits.
  intros Hne. exists (Vector.make d), Vector.make_end.
  split; [done|]. split; [done|]. split; [done|].
  by apply (Vector_Run_from d Hne 0%nat).
Qed.
End VectorFacts.

(** ** [Transform] with a side-effecting function *)

Section EffectfulFacts.
Context {T E : Type} (up : DataStream T) (f : T -> E -> T * E).

Lemma Effectful_loop_Run (e i : Iter up) (xs : list T) :
  Run up e i xs ->
  forall (fuel : nat) (ei ee : Iter up) (acc : list T) (w : Effectful.world T E),
    (length xs < fuel)%nat ->
    Effectful.AsVector_loop up f fuel
      {| Transformed.it := i; Transformed.end_ := ei |}
      {| Transformed.it := e; Transformed.end_ := ee |} acc w
    = let '(ys, e2, j) := transform_in_order f xs (Effectful.env w) in
      Value (acc ++ ys,
             {| Effectful.env := e2; Effectful.journal := Effectful.journal w ++ j |}).
Proof.
  induction 1 as [i Hend Hneq | i x i' xs Hend Hneq Hd Hi Hrun IH];
    intros fuel ei ee acc w Hfuel;
    (destruct fuel as [|fuel]; [simpl in Hfuel; lia|]).
  - simpl. unfold Transformed.neq. simpl. rewrite Hneq. simpl.
    rewrite !app_nil_r. by destruct w.
  - simpl. unfold Transformed.neq. simpl. rewrite Hneq. simpl.
    unfold Effectful.deref. simpl. rewrite Hd. simpl.
    destruct (f x (Effectful.env w)) as [y e1] eqn:Hf. simpl.
    unfold Transformed.incr. simpl. rewrite Hi. simpl.
    rewrite IH; [|simpl in Hfuel; lia]. simpl.
    destruct (transform_in_order f xs e1) as [[ys e2] j].
    by rewrite <- !app_assoc.
Qed.

Lemma Effectful_collect_Emits (xs : list T) (fuel : nat) (e0 : E) :
  Emits up xs -> (length xs < fuel)%nat ->
  Effectful.collect up f fuel e0
  = let '(ys, e2, j) := transform_in_order f xs e0 in
    Value (ys, {| Effectful.env := e2; Effectful.journal := j |}).
Proof.
  intros (b & e & Hb & He & _ & Hrun) Hfuel.
  unfold Effectful.collect. rewrite Hb, He. simpl.
  by rewrite (Effectful_loop_Run e b xs Hrun fuel e e []).
Qed.
End EffectfulFacts.

(** On a non-empty source the side-effecting transform behaves as
    promised: outputs in order, one call per element, each call directly
    before the emission of its result. *)
Lemma transform_source_nonempty {T E : Type} (f : T -> E -> T * E) (xs : list T)
    (fuel : nat) (e0 : E) :
  xs <> [] -> N.of_nat (length xs) < size_max -> (length xs < fuel)%nat ->
  Effectful.collect (AsDataFlow xs) f fuel e0
  = let '(ys, e2, j) := transform_in_order f xs e0 in
    Value (ys, {| Effectful.env := e2; Effectful.journal := j |}).
Proof.
  intros Hne Hfits Hfuel. apply Effectful_collect_Emits; [|done].
  by apply Vector_Emits.
Qed.

(** The [RunningTotal] test: [1,2,3,4,5] through a transform that adds
    each element to a captured total. *)
Example running_total :
  Effectful.collect (AsDataFlow [1; 2; 3; 4; 5])
    (fun x total => (total + x, total + x)) 6 0
  = Value ([1; 3; 6; 10; 15],
           {| Effectful.env := 15;
              Effectful.journal :=
                [Effectful.Invoked 1; Effectful.Pushed 1;
                 Effectful.Invoked 2; Effectful.Pushed 3;
                 Effectful.Invoked 3; Effectful.Pushed 6;
                 Effectful.Invoked 4; Effectful.Pushed 10;
                 Effectful.Invoked 5; Effectful.Pushed 15] |}).
Proof. vm_compute. reflexivity. Qed.

(** C4 (fails on the code for the empty source).  The claim promises
    [collect(transform(f)(source(xs))) = [f(x) for x in xs]] for every
    in-memory source, hence the empty result with no call of [f] for
    [xs = []].  The cursor of an empty vector starts with [is_end = false],
    so [AsVector] enters its loop and [operator*] subscripts the empty
    vector at index 0: the run has no defined result whatever [f] is. *)
Theorem transform_collect_empty_source {T E : Type} (f : T -> E -> T * E)
    (fuel : nat) (e0 : E) :
  Effectful.collect (AsDataFlow (@nil T)) f (S fuel) e0 = Undefined
  /\ transform_in_order f (@nil T) e0 = ([], e0, []).
Proof. split; reflexivity. Qed.

(** ** The split adapter *)

Section SplitFacts.
Context (D : gset ascii).

Lemma is_empty_true (s : std_string) : Split.is_empty s = true <-> s = [].
Proof. destruct s; simpl; split; congruence. Qed.

Lemma is_empty_false (s : std_string) : Split.is_empty s = false <-> s <> [].
Proof. destruct s; simpl; split; congruence. Qed.

Lemma tokens_from_nonempty (line cur : std_string) :
  Forall (fun t => t <> []) (tokens_from D cur line).
Proof.
  revert cur. induction line as [|c rest IH]; intros cur; simpl.
  - destruct cur; simpl; constructor; done.
  - destruct (bool_decide (c ∈ D)); [|apply IH].
    destruct cur; simpl; [apply IH|].
    constructor; [done|apply IH].
Qed.

Lemma tokens_from_no_delimiter (line cur : std_string) :
  Forall (fun c => c ∉ D) cur ->
  Forall (fun t => Forall (fun c => c ∉ D) t) (tokens_from D cur line).
Proof.
  revert cur. induction line as [|c rest IH]; intros cur Hcur; simpl.
  - destruct (Split.is_empty cur); constructor; done.
  - destruct (bool_decide_reflect (c ∈ D)) as [Hin|Hout].
    + destruct (Split.is_empty cur); [by apply IH|].
      constructor; [done|by apply IH].
    + apply IH. apply Forall_app. split; [done|]. by constructor.
Qed.

(** The inner [for] loop against the specification's tokenizer. *)
Lemma scan_tokens (rest : std_string) :
  forall (pos : nat) (cur : std_string),
    match Split.scan D rest pos cur with
    | (true, pos', cur') =>
        cur' <> [] /\ (pos < pos')%nat /\
        tokens_from D cur rest = cur' :: tokens_from D [] (drop (pos' - pos) rest)
    | (false, _, cur') =>
        tokens_from D cur rest = if Split.is_empty cur' then [] else [cur']
    end.
Proof.
  induction rest as [|c rest IH]; intros pos cur; simpl; [done|].
  unfold Split.count.
  destruct (bool_decide (c ∈ D)).
  - destruct (Split.is_empty cur) eqn:Hcur; simpl.
    + specialize (IH (S pos) cur).
      apply is_empty_true in Hcur. subst cur.
      destruct (Split.scan D rest (S pos) []) as [[[] pos'] cur'].
      * destruct IH as (Hne & Hlt & Heq). split; [done|]. split; [lia|].
        rewrite Heq. do 2 f_equal.
        replace (pos' - pos)%nat with (S (pos' - S pos)) by lia. done.
      * done.
    + split; [by apply is_empty_false|]. split; [lia|].
      replace (S pos - pos)%nat with 1%nat by lia. done.
  - specialize (IH (S pos) (cur ++ [c])).
    destruct (Split.scan D rest (S pos) (cur ++ [c])) as [[[] pos'] cur'].
    + destruct IH as (Hne & Hlt & Heq). split; [done|]. split; [lia|].
      rewrite Heq. do 2 f_equal.
      replace (pos' - pos)%nat with (S (pos' - S pos)) by lia. done.
    + done.
Qed.

Lemma tokens_pending_0 (ls : list std_string) :
  tokens_pending D ls 0 = tokens_of_elements D ls.
Proof. by destruct ls. Qed.

Context (up : DataStream std_string) (e : Iter up).

(** One call of [skipToNext]: it stops on the next pending token, or
    with an empty [current_line] at the end of the upstream. *)
Lemma skipToNext_loop_Run (i : Iter up) (ls : list std_string) :
  Run up e i ls ->
  forall (fuel pos : nat) (ee : Iter up),
    (length ls < fuel)%nat ->
    exists st,
      Split.skipToNext_loop up D fuel i ee pos [] = Value st /\
      Split.end_ up st = ee /\
      match tokens_pending D ls pos with
      | [] => Split.current_line up st = [] /\ Run up e (Split.it up st) []
      | t :: ts =>
          Split.current_line up st = t /\
          exists ls',
            Run up e (Split.it up st) ls' /\
            tokens_pending D ls' (Split.pos_in_line up st) = ts /\
            (length ls' <= length ls)%nat
      end.
Proof.
  induction 1 as [i Hend Hneq | i line i' rest Hend Hneq Hd Hi Hrun IH];
    intros fuel pos ee Hfuel;
    (destruct fuel as [|fuel]; [simpl in Hfuel; lia|]); simpl.
  - rewrite Hend. eexists. split; [done|]. split; [done|]. simpl.
    split; [done|]. by apply Run_end.
  - rewrite Hend, Hd. simpl.
    pose proof (scan_tokens (drop pos line) pos []) as Hscan.
    destruct (Split.scan D (drop pos line) pos []) as [[[] pos'] cur'].
    + destruct Hscan as (Hne & Hlt & Heq).
      eexists. split; [done|]. split; [done|]. simpl.
      unfold tokens. rewrite Heq. simpl. split; [done|].
      exists (line :: rest). split; [by eapply Run_step|].
      split; [|done]. simpl. unfold tokens.
      rewrite drop_drop. by replace (pos + (pos' - pos))%nat with pos' by lia.
    + rewrite Hi. simpl.
      destruct (Split.is_empty cur') eqn:Hcur; simpl.
      * apply is_empty_true in Hcur. subst cur'.
        assert (Hfuel' : (length rest < fuel)%nat) by (simpl in Hfuel; lia).
        destruct (IH fuel 0%nat ee Hfuel') as (st & Hst & Hee & Hpend).
        exists st. split; [done|]. split; [done|].
        unfold tokens. rewrite Hscan. simpl.
        rewrite tokens_pending_0 in Hpend.
        destruct (tokens_of_elements D rest) as [|t ts]; [done|].
        destruct Hpend as (Hcl & ls' & Hrun' & Hts & Hlen).
        split; [done|]. exists ls'. split; [done|]. split; [done|]. lia.
      * eexists. split; [done|]. split; [done|]. simpl.
        unfold tokens. rewrite Hscan. simpl. split; [done|].
        exists rest. split; [done|]. split; [apply tokens_pending_0|lia].
Qed.

Lemma skipToNext_loop_at_end (fuel pos : nat) (i ee : Iter up) (cur : std_string) :
  (0 < fuel)%nat -> getIsEnd up i = true ->
  Split.skipToNext_loop up D fuel i ee pos cur
  = Value {| Split.it := i; Split.end_ := ee;
             Split.current_line := cur; Split.pos_in_line := pos |}.
Proof. intros Hfuel Hend. destruct fuel; [lia|]. simpl. by rewrite Hend. Qed.

Lemma tokens_of_elements_nonempty (xs : list std_string) :
  Forall (fun t => t <> []) (tokens_of_elements D xs).
Proof.
  induction xs as [|x xs IH]; simpl; [constructor|].
  apply Forall_app. split; [apply tokens_from_nonempty|done].
Qed.

Lemma tokens_of_elements_no_delimiter (xs : list std_string) :
  Forall (fun t => Forall (fun c => c ∉ D) t) (tokens_of_elements D xs).
Proof.
  induction xs as [|x xs IH]; simpl; [constructor|].
  apply Forall_app. split; [|done].
  apply tokens_from_no_delimiter. constructor.
Qed.

Lemma tokens_pending_nonempty (ls : list std_string) (pos : nat) :
  Forall (fun t => t <> []) (tokens_pending D ls pos).
Proof.
  destruct ls as [|line rest]; simpl; [constructor|].
  apply Forall_app. split;
    [apply tokens_from_nonempty|apply tokens_of_elements_nonempty].
Qed.
End SplitFacts.

Section SplitStream.
Context (fuel : nat) (filter_string : std_string) (up : DataStream std_string).

Let D : gset ascii := list_to_set filter_string.
Let split : DataStream std_string := SplitDataStream fuel up filter_string.

(** The cursor of the split stream, from any state reached by
    [skipToNext], yields the token it holds and then the pending ones. *)
Lemma Split_Run (E : Iter split) (toks : list std_string) :
  forall (st : Iter split) (ls : list std_string),
    Run up (Split.it up E) (Split.it up st) ls ->
    (length ls < fuel)%nat ->
    (Split.current_line up st = [] -> ls = []) ->
    toks = (if Split.is_empty (Split.current_line up st) then []
            else Split.current_line up st
                   :: tokens_pending D ls (Split.pos_in_line up st)) ->
    Run split E st toks.
Proof.
  induction toks as [|t ts IH]; intros st ls Hrun Hfuel Hnil Htoks.
  - destruct (Split.is_empty (Split.current_line up st)) eqn:Hcur; [|done].
    apply is_empty_true in Hcur. specialize (Hnil Hcur). subst ls.
    inversion Hrun as [i Hend Hneq|]; subst.
    apply Run_end; simpl.
    + unfold Split.getIsEnd. rewrite Hend, Hcur. done.
    + unfold Split.neq. rewrite Hneq, Hcur. done.
  - destruct (Split.is_empty (Split.current_line up st)) eqn:Hcur; [done|].
    injection Htoks as Ht Hts.
    destruct (skipToNext_loop_Run D up _ _ ls Hrun fuel
                (Split.pos_in_line up st) (Split.end_ up st) Hfuel)
      as (st' & Hst' & _ & Hpend).
    assert (Hdiff : exists b, neq up (Split.it up st) (Split.it up E) = Value b).
    { inversion Hrun; eauto. }
    destruct Hdiff as [b Hb].
    apply Run_step with (i' := st'); simpl.
    + unfold Split.getIsEnd. rewrite Hcur. by rewrite andb_false_r.
    + unfold Split.neq. rewrite Hb, Hcur. simpl. by rewrite orb_true_r.
    + unfold Split.deref. by rewrite Ht.
    + done.
    + pose proof (tokens_pending_nonempty D ls (Split.pos_in_line up st)) as Hne.
      rewrite <- Hts in Hpend, Hne.
      destruct ts as [|t' ts'].
      * destruct Hpend as (Hcl & Hrun').
        apply (IH st' []); [done|simpl; lia|done|]. by rewrite Hcl.
      * destruct Hpend as (Hcl & ls' & Hrun' & Hts' & Hlen).
        apply (IH st' ls'); [done|lia| |].
        -- intros Hcl'. rewrite Hcl in Hcl'. subst t'.
           by inversion Hne.
        -- rewrite Hcl, Hts'.
           inversion Hne as [|? ? Ht' _]; subst.
           apply is_empty_false in Ht'. by rewrite Ht'.
Qed.

(** The split adapter over any stream of text elements emits the
    tokens of each element in turn. *)
Lemma Split_Emits (xs : list std_string) :
  Emits up xs -> (length xs < fuel)%nat ->
  Emits split (tokens_of_elements D xs).
Proof.
  intros (b & e & Hb & He & Hend & Hrun) Hfuel.
  destruct (skipToNext_loop_Run D up e b xs Hrun fuel 0%nat e Hfuel)
    as (st & Hst & _ & Hpend).
  set (E := {| Split.it := e; Split.end_ := e;
               Split.current_line := []; Split.pos_in_line := 0 |}
            : Iter split).
  exists st, E.
  split; [|split; [|split]].
  - cbn. rewrite Hb, He. cbn. done.
  - cbn. rewrite He. cbn. unfold Split.make, Split.skipToNext. cbn.
    apply skipToNext_loop_at_end; [lia|done].
  - cbn. unfold Split.getIsEnd. cbn. by rewrite Hend.
  - pose proof (tokens_pending_nonempty D xs 0) as Hne.
    rewrite tokens_pending_0 in Hpend, Hne.
    destruct (tokens_of_elements D xs) as [|t ts] eqn:Htoks.
    + destruct Hpend as (Hcl & Hrun').
      apply (Split_Run E [] st []); [done|simpl; lia|done|].
      by rewrite Hcl.
    + destruct Hpend as (Hcl & ls' & Hrun' & Hts & Hlen).
      apply Forall_cons_1 in Hne as [Ht _].
      apply (Split_Run E (t :: ts) st ls'); [done|lia| |].
      * intros Hcl'. by rewrite Hcl in Hcl'.
      * rewrite Hcl, Hts. apply is_empty_false in Ht. by rewrite Ht.
Qed.
End SplitStream.

(** C3.  The split adapter never glues a token across upstream
    elements: over any stream that yields the text elements [xs],
    collecting the split stream gives the tokens of the first element,
    then the tokens of the second, and so on.  A run in progress when an
    element ends is emitted as a token of that element (also for the last
    element, before the end of the stream) and never continued with
    characters of the next one. *)
Theorem split_no_gluing (fuel fuel' : nat) (filter_string : std_string)
    (up : DataStream std_string) (xs : list std_string) :
  Emits up xs ->
  (length xs < fuel)%nat ->
  (length (tokens_of_elements (list_to_set filter_string) xs) < fuel')%nat ->
  AsVector fuel' (Split fuel filter_string up)
  = Value (flat_map (tokens (list_to_set filter_string)) xs).
Proof.
  intros Hup Hfuel Hfuel'.
  apply AsVector_Emits; [|done].
  by apply Split_Emits.
Qed.

Lemma split_no_gluing_witness :
  AsVector 5
    (Split 5 (list_ascii_of_string ",")
       (AsDataFlow [list_ascii_of_string "ab"; list_ascii_of_string "cd,e"]))
  = Value [list_ascii_of_string "ab"; list_ascii_of_string "cd";
           list_ascii_of_string "e"].
Proof.
  apply (split_no_gluing 5 5 (list_ascii_of_string ",")
           (AsDataFlow [list_ascii_of_string "ab"; list_ascii_of_string "cd,e"])
           [list_ascii_of_string "ab"; list_ascii_of_string "cd,e"]).
  - apply Vector_Emits; [vm_compute; reflexivity|discriminate].
  - simpl. lia.
  - vm_compute. lia.
Defined.

(** The [DifferentDelimiters] test. *)
Example split_different_delimiters :
  AsVector 11
    (Split 3 (list_ascii_of_string ",;")
       (AsDataFlow [list_ascii_of_string "1,2,3,4,5";
                    list_ascii_of_string "6;7;8;9;10"]))
  = Value (map list_ascii_of_string
             ["1"; "2"; "3"; "4"; "5"; "6"; "7"; "8"; "9"; "10"]%string).
Proof. vm_compute. reflexivity. Qed.

(** C8.  For every delimiter string and every stream of text elements,
    collecting the split stream returns, and none of the returned
    tokens is empty or contains a delimiter. *)
Theorem split_tokens_clean (fuel fuel' : nat) (filter_string : std_string)
    (up : DataStream std_string) (xs : list std_string) :
  Emits up xs ->
  (length xs < fuel)%nat ->
  (length (tokens_of_elements (list_to_set filter_string) xs) < fuel')%nat ->
  exists toks,
    AsVector fuel' (Split fuel filter_string up) = Value toks /\
    Forall (fun t => t <> [] /\ Forall (fun c => c ∉ filter_string) t) toks.
Proof.
  intros Hup Hfuel Hfuel'.
  exists (tokens_of_elements (list_to_set filter_string) xs). split.
  - apply AsVector_Emits; [|done]. by apply Split_Emits.
  - apply Forall_and. split.
    + apply tokens_of_elements_nonempty.
    + eapply Forall_impl; [apply tokens_of_elements_no_delimiter|].
      intros t Ht. eapply Forall_impl; [exact Ht|].
      intros c Hc Hin. apply Hc. by apply elem_of_list_to_set.
Qed.

Lemma split_tokens_clean_witness :
  exists toks,
    AsVector 5
      (Split 5 (list_ascii_of_string ",;")
         (AsDataFlow [list_ascii_of_string ",,a;"; list_ascii_of_string ";b,"]))
    = Value toks /\
    Forall (fun t => t <> [] /\
                     Forall (fun c => c ∉ list_ascii_of_string ",;") t) toks.
Proof.
  apply (split_tokens_clean 5 5 (list_ascii_of_string ",;")
           (AsDataFlow [list_ascii_of_string ",,a;"; list_ascii_of_string ";b,"])
           [list_ascii_of_string ",,a;"; list_ascii_of_string ";b,"]).
  - apply Vector_Emits; [vm_compute; reflexivity|discriminate].
  - simpl. lia.
  - vm_compute. lia.
Defined.

(** ** Aggregation by key *)

Section FirstOccurrences.
Context {K : Type} `{EqDecision K}.

Lemma first_occurrences_elem (ks seen : list K) (k : K) :
  k ∈ first_occurrences seen ks <-> k ∈ ks /\ k ∉ seen.
Proof.
  revert seen. induction ks as [|k' ks IH]; intros seen; simpl.
  - rewrite elem_of_nil. tauto.
  - destruct (decide (k' ∈ seen)) as [Hin|Hout].
    + rewrite IH, elem_of_cons. split; [tauto|].
      intros [[->|Hk] Hs]; [done|tauto].
    + rewrite !elem_of_cons, IH, elem_of_cons.
      destruct (decide (k = k')) as [->|Hne]; [tauto|]. tauto.
Qed.

Lemma first_occurrences_NoDup (ks seen : list K) :
  NoDup (first_occurrences seen ks).
Proof.
  revert seen. induction ks as [|k ks IH]; intros seen; simpl; [constructor|].
  destruct (decide (k ∈ seen)); [apply IH|].
  constructor; [|apply IH].
  rewrite first_occurrences_elem, elem_of_cons. tauto.
Qed.

Lemma first_occurrences_snoc (ks seen : list K) (k : K) :
  first_occurrences seen (ks ++ [k])
  = first_occurrences seen ks
      ++ (if decide (k ∈ seen ++ ks) then [] else [k]).
Proof.
  revert seen. induction ks as [|k' ks IH]; intros seen; simpl.
  - rewrite app_nil_r. by destruct (decide (k ∈ seen)).
  - destruct (decide (k' ∈ seen)) as [Hin|Hout].
    + rewrite IH. f_equal. apply decide_ext.
      rewrite !elem_of_app, elem_of_cons.
      split; [tauto|]. intros [?|[->|?]]; tauto.
    + rewrite IH. simpl. do 2 f_equal. apply decide_ext.
      rewrite elem_of_cons, !elem_of_app, elem_of_cons. tauto.
Qed.

Lemma first_occurrences_length (ks seen : list K) :
  (length (first_occurrences seen ks) <= length ks)%nat.
Proof.
  revert seen. induction ks as [|k ks IH]; intros seen; simpl; [lia|].
  destruct (decide (k ∈ seen)); simpl.
  - specialize (IH seen). lia.
  - specialize (IH (k :: seen)). lia.
Qed.
End FirstOccurrences.

Section AggregateResultsFacts.
Context {K Acc : Type} (rs : list (K * Acc)).
Hypothesis rs_fits : N.of_nat (length rs) < size_max.

Lemma AggregateResults_Run_from (l : list (K * Acc)) :
  forall n : nat, drop n rs = l -> (n <= length rs)%nat ->
    Run (AggregateResults rs)
      {| Aggregate.results_ := rs; Aggregate.index_ := N.of_nat (length rs) |}
      {| Aggregate.results_ := rs; Aggregate.index_ := N.of_nat n |} l.
Proof using rs_fits.
  induction l as [|r l IH]; intros n Hdrop Hle.
  - assert (Hn : n = length rs).
    { apply (f_equal length) in Hdrop. rewrite length_drop in Hdrop.
      simpl in Hdrop. lia. }
    subst n. apply Run_end; simpl.
    + unfold Aggregate.getIsEnd. simpl. by rewrite N.leb_refl.
    + unfold Aggregate.neq. simpl. by rewrite N.eqb_refl.
  - assert (Hr : rs !! n = Some r).
    { rewrite <- (Nat.add_0_r n), <- lookup_drop, Hdrop. done. }
    assert (Hn : (n < length rs)%nat) by (by eapply lookup_lt_Some).
    eapply Run_step with (i' := Aggregate.incr _); simpl.
    + unfold Aggregate.getIsEnd. simpl. apply N.leb_gt. lia.
    + unfold Aggregate.neq. simpl.
      destruct (N.eqb_spec (N.of_nat n) (N.of_nat (length rs))); [lia|done].
    + unfold Aggregate.deref. simpl. by rewrite Nat2N.id, Hr.
    + done.
    + unfold Aggregate.incr. simpl.
      rewrite size_succ_small by lia.
      replace (N.of_nat n + 1) with (N.of_nat (S n)) by lia.
      apply IH; [|lia].
      replace (S n) with (1 + n)%nat by lia.
      rewrite Nat.add_comm, <- drop_drop, Hdrop. done.
Qed.

Lemma AggregateResults_Emits : Emits (AggregateResults rs) rs.
Proof using rs_fits.
  eexists _, _. split; [done|]. split; [done|]. split.
  - simpl. unfold Aggregate.getIsEnd. simpl. by rewrite N.leb_refl.
  - by apply (AggregateResults_Run_from rs 0%nat); [|lia].
Qed.
End AggregateResultsFacts.

Section AggregateFacts.
Context {T K Acc : Type} `{Countable K}.
Context (up : DataStream T) (initial_value : Acc)
  (accumulate_func : T -> Acc -> Acc) (key_func : T -> K) (Acc_default : Acc).

Let accumulated_at := accumulated initial_value accumulate_func key_func.
Let absorb := Aggregate.absorb initial_value accumulate_func key_func Acc_default.

Let drained := drained initial_value accumulate_func key_func.

Lemma drained_nil : drained [] (∅, []).
Proof. split; [done|]. intros k. simpl. by rewrite lookup_empty. Qed.

Lemma accumulated_snoc_same (seen : list T) (x : T) :
  accumulated_at (seen ++ [x]) (key_func x)
  = accumulate_func x (accumulated_at seen (key_func x)).
Proof.
  unfold accumulated_at, accumulated.
  rewrite filter_app, foldl_app. simpl.
  rewrite (filter_cons_True (fun y => key_func y = key_func x)) by done.
  done.
Qed.

Lemma accumulated_snoc_other (seen : list T) (x : T) (k : K) :
  key_func x <> k ->
  accumulated_at (seen ++ [x]) k = accumulated_at seen k.
Proof.
  intros Hne. unfold accumulated_at, accumulated.
  rewrite filter_app.
  rewrite (filter_cons_False (fun y => key_func y = k)) by done.
  by rewrite filter_nil, app_nil_r.
Qed.

Lemma accumulated_unseen (seen : list T) (k : K) :
  k ∉ map key_func seen -> accumulated_at seen k = initial_value.
Proof.
  intros Hk. unfold accumulated_at, accumulated.
  replace (filter (fun x => key_func x = k) seen) with (@nil T); [done|].
  symmetry. induction seen as [|y seen IH]; [done|].
  simpl in Hk. rewrite not_elem_of_cons in Hk. destruct Hk as [Hy Hk].
  rewrite filter_cons_False by done. by apply IH.
Qed.

Lemma absorb_drained (seen : list T) (x : T) (st : gmap K Acc * list K) :
  drained seen st -> drained (seen ++ [x]) (absorb x st).
Proof.
  destruct st as [m order]. intros [Horder Hm]. simpl in Horder, Hm.
  unfold absorb, Aggregate.absorb.
  specialize (Hm (key_func x)) as Hx.
  destruct (decide (key_func x ∈ map key_func seen)) as [Hin|Hout].
  - rewrite Hx. split; simpl.
    + rewrite map_app. simpl. rewrite first_occurrences_snoc. simpl.
      rewrite decide_True by done. by rewrite app_nil_r.
    + intros k. rewrite map_app, lookup_insert. simpl.
      unfold Aggregate.at_key. rewrite Hx. simpl.
      destruct (decide (key_func x = k)) as [<-|Hne].
      * rewrite decide_True by (rewrite elem_of_app; tauto).
        by rewrite accumulated_snoc_same.
      * rewrite Hm, accumulated_snoc_other by done.
        apply decide_ext. rewrite elem_of_app, list_elem_of_singleton.
        split; [tauto|]. intros [?|?]; [done|]. by subst.
  - rewrite Hx. split; simpl.
    + rewrite map_app. simpl. rewrite first_occurrences_snoc. simpl.
      rewrite decide_False by done. by rewrite Horder.
    + intros k. rewrite map_app, lookup_insert. simpl.
      unfold Aggregate.at_key. rewrite lookup_insert_eq. simpl.
      destruct (decide (key_func x = k)) as [<-|Hne].
      * rewrite decide_True by (rewrite elem_of_app, list_elem_of_singleton; tauto).
        by rewrite accumulated_snoc_same, accumulated_unseen.
      * rewrite lookup_insert_ne by done.
        rewrite Hm, accumulated_snoc_other by done.
        apply decide_ext. rewrite elem_of_app, list_elem_of_singleton.
        split; [tauto|]. intros [?|?]; [done|]. by subst.
Qed.

Lemma drain_Run (e i : Iter up) (xs : list T) :
  Run up e i xs ->
  forall (fuel : nat) (seen : list T) (st : gmap K Acc * list K),
    (length xs < fuel)%nat -> drained seen st ->
    exists st',
      Aggregate.drain up initial_value accumulate_func key_func Acc_default fuel i st
      = Value st' /\ drained (seen ++ xs) st'.
Proof.
  induction 1 as [i Hend Hneq | i x i' xs Hend Hneq Hd Hi Hrun IH];
    intros fuel seen st Hfuel Hst;
    (destruct fuel as [|fuel]; [simpl in Hfuel; lia|]); simpl.
  - rewrite Hend. exists st. by rewrite app_nil_r.
  - rewrite Hend, Hd. simpl. rewrite Hi. simpl.
    destruct (IH fuel (seen ++ [x]) (absorb x st)) as (st' & Hst' & Hdr).
    + simpl in Hfuel. lia.
    + by apply absorb_drained.
    + exists st'. split; [done|]. by rewrite <- app_assoc in Hdr.
Qed.

Lemma emit_drained (xs : list T) (st : gmap K Acc * list K) :
  drained xs st ->
  Aggregate.emit Acc_default st
  = map (fun k => (k, accumulated_at xs k)) (first_occurrences [] (map key_func xs)).
Proof.
  intros [Horder Hm]. unfold Aggregate.emit. rewrite Horder.
  apply map_ext_in. intros k Hk. f_equal.
  apply list_elem_of_In, first_occurrences_elem in Hk as [Hk _].
  unfold Aggregate.at_key. rewrite Hm, decide_True by done. done.
Qed.

Lemma build_Emits (xs : list T) (fuel : nat) :
  Emits up xs -> (length xs < fuel)%nat ->
  Aggregate.build up initial_value accumulate_func key_func Acc_default fuel
  = Value (map (fun k => (k, accumulated_at xs k))
             (first_occurrences [] (map key_func xs))).
Proof.
  intros (b & e & Hb & He & _ & Hrun) Hfuel.
  unfold Aggregate.build. rewrite Hb, He. simpl.
  destruct (drain_Run e b xs Hrun fuel [] (∅, []) Hfuel (drained_nil))
    as (st & Hst & Hdr).
  rewrite Hst. simpl. f_equal. by apply emit_drained.
Qed.
End AggregateFacts.

(** C5.  For every input stream, initial accumulator, accumulate
    function and key function, aggregate-by-key returns a stream that
    emits exactly one pair per distinct key of the input, in the order in
    which the keys first occur in the input; the accumulator paired with
    a key is the initial value updated with the elements of that key in
    input order. *)
Theorem aggregate_first_occurrence_order {T K Acc : Type} `{Countable K}
    (fuel : nat) (initial_value : Acc) (accumulate_func : T -> Acc -> Acc)
    (key_func : T -> K) (Acc_default : Acc) (up : DataStream T) (xs : list T) :
  Emits up xs ->
  (length xs < fuel)%nat ->
  N.of_nat (length xs) < size_max ->
  exists s rs,
    AggregateByKey fuel initial_value accumulate_func key_func Acc_default up = Value s /\
    Emits s rs /\
    map fst rs = first_occurrences [] (map key_func xs) /\
    NoDup (map fst rs) /\
    (forall k, k ∈ map fst rs <-> k ∈ map key_func xs) /\
    rs = map (fun k => (k, accumulated initial_value accumulate_func key_func xs k))
           (first_occurrences [] (map key_func xs)).
Proof.
  intros Hup Hfuel Hfits.
  set (rs := map (fun k => (k, accumulated initial_value accumulate_func key_func xs k))
               (first_occurrences [] (map key_func xs))).
  assert (Hkeys : map fst rs = first_occurrences [] (map key_func xs)).
  { unfold rs. rewrite map_map. simpl. apply map_id. }
  exists (AggregateResults rs), rs.
  split; [|split; [|split; [|split; [|split]]]].
  - unfold AggregateByKey.
    by rewrite (build_Emits up initial_value accumulate_func key_func
                  Acc_default xs fuel Hup Hfuel).
  - apply AggregateResults_Emits.
    pose proof (first_occurrences_length (map key_func xs) []) as Hlen.
    rewrite length_map in Hlen.
    unfold rs. rewrite length_map. lia.
  - done.
  - rewrite Hkeys. apply first_occurrences_NoDup.
  - intros k. rewrite Hkeys, first_occurrences_elem.
    split; [tauto|]. intros Hk. split; [done|]. apply not_elem_of_nil.
  - done.
Qed.

Lemma aggregate_first_occurrence_order_witness :
  exists s rs,
    AggregateByKey 6 0 (fun x a => a + x) (fun x => x mod 3) 0
      (AsDataFlow [5; 3; 2; 6; 4]) = Value s /\
    Emits s rs /\
    map fst rs = first_occurrences [] (map (fun x => x mod 3) [5; 3; 2; 6; 4]) /\
    NoDup (map fst rs) /\
    (forall k, k ∈ map fst rs <-> k ∈ map (fun x => x mod 3) [5; 3; 2; 6; 4]) /\
    rs = map (fun k => (k, accumulated 0 (fun x a => a + x) (fun x => x mod 3)
                             [5; 3; 2; 6; 4] k))
           (first_occurrences [] (map (fun x => x mod 3) [5; 3; 2; 6; 4])).
Proof.
  apply (aggregate_first_occurrence_order 6 0 (fun x a => a + x)
           (fun x => x mod 3) 0 (AsDataFlow [5; 3; 2; 6; 4]) [5; 3; 2; 6; 4]).
  - apply Vector_Emits; [vm_compute; reflexivity|discriminate].
  - simpl. lia.
  - vm_compute. reflexivity.
Defined.

(** Sums per remainder modulo 3 of [5,3,2,6,4]: keys in the order 2, 0, 1. *)
Example aggregate_by_remainder :
  (let! s := AggregateByKey 6 0 (fun x a => a + x) (fun x => x mod 3) 0
               (AsDataFlow [5; 3; 2; 6; 4]) in
   AsVector 4 s)
  = Value [(2, 7); (0, 9); (1, 4)].
Proof. vm_compute. reflexivity. Qed.

(** ** The joined stream *)

Section JoinedFacts.
Context {Left Right K : Type} `{Countable K}.
Context (left_stream : DataStream Left) (left_key : Left -> K).
Context (right_map : gmap K (list Right)).
Hypothesis rights_fit :
  forall k rights, right_map !! k = Some rights ->
    N.of_nat (length rights) < size_max.

Let joined := JoinedWith left_stream left_key right_map.
Let rights_of (l : Left) : list Right := default [] (right_map !! left_key l).
Let rows_of (l : Left) := join_rows l (rights_of l).

Lemma rights_of_fit (l : Left) : N.of_nat (length (rights_of l)) < size_max.
Proof using rights_fit.
  unfold rights_of. destruct (right_map !! left_key l) as [rights|] eqn:Hk.
  - by apply (rights_fit (left_key l)).
  - done.
Qed.

Lemma advanceToNextValid_at_end (j : Iter joined) :
  getIsEnd left_stream (Joined.left_it left_stream j) = true ->
  Joined.advanceToNextValid left_stream left_key right_map j = Value j.
Proof. intros Hend. unfold Joined.advanceToNextValid. by rewrite Hend. Qed.

Lemma advanceToNextValid_at (i ee : Iter left_stream) (stale : list Right) (l : Left) :
  getIsEnd left_stream i = false ->
  deref left_stream i = Value l ->
  Joined.advanceToNextValid left_stream left_key right_map
    {| Joined.left_it := i; Joined.left_end := ee;
       Joined.current_rights := stale; Joined.current_right_index := 0 |}
  = Value {| Joined.left_it := i; Joined.left_end := ee;
             Joined.current_rights := rights_of l;
             Joined.current_right_index := 0 |}.
Proof.
  intros Hend Hd. unfold Joined.advanceToNextValid. simpl.
  rewrite Hend, Hd. simpl. unfold rights_of.
  by destruct (right_map !! left_key l).
Qed.

(** The rows of one left element, from the [n]-th right match on. *)
Lemma Joined_Run_rights (E : Iter joined) (i i' ee : Iter left_stream) (l : Left)
    (rest : list (JoinResult Left Right)) :
  getIsEnd left_stream i = false ->
  neq left_stream i (Joined.left_it left_stream E) = Value true ->
  deref left_stream i = Value l ->
  incr left_stream i = Value i' ->
  (forall stale, exists j,
      Joined.advanceToNextValid left_stream left_key right_map
        {| Joined.left_it := i'; Joined.left_end := ee;
           Joined.current_rights := stale; Joined.current_right_index := 0 |}
      = Value j /\ Run joined E j rest) ->
  forall (todo n : nat),
    (n + todo = length (rights_of l))%nat ->
    (0 < todo)%nat ->
    Run joined E
      {| Joined.left_it := i; Joined.left_end := ee;
         Joined.current_rights := rights_of l;
         Joined.current_right_index := N.of_nat n |}
      (drop n (rows_of l) ++ rest).
Proof using rights_fit.
  intros Hend Hneq Hd Hi Hnext.
  pose proof (rights_of_fit l) as Hfit.
  induction todo as [|todo IH]; intros n Hn Htodo; [lia|].
  assert (Hlt : (n < length (rights_of l))%nat) by lia.
  destruct (lookup_lt_is_Some_2 _ _ Hlt) as [r Hr].
  assert (Hne : Joined.is_empty (rights_of l) = false).
  { destruct (rights_of l); [simpl in Hlt; lia|done]. }
  assert (Hrows : rows_of l = map (fun r => Build_JoinResult l (Some r)) (rights_of l)).
  { unfold rows_of, join_rows. destruct (rights_of l); [simpl in Hlt; lia|done]. }
  rewrite Hrows.
  rewrite (drop_S _ (Build_JoinResult l (Some r)) n)
    by (by rewrite list_lookup_fmap, Hr).
  simpl.
  destruct (Hnext (rights_of l)) as (jn & Hjn & Hrunn).
  assert (Hderef :
    Joined.deref left_stream
      {| Joined.left_it := i; Joined.left_end := ee;
         Joined.current_rights := rights_of l;
         Joined.current_right_index := N.of_nat n |}
    = Value (Build_JoinResult l (Some r))).
  { unfold Joined.deref. simpl. rewrite Hne, Hd. simpl.
    by rewrite Nat2N.id, Hr. }
  destruct (N.ltb_spec (N.of_nat n + 1) (N.of_nat (length (rights_of l))))
    as [Hmore|Hlast].
  - apply Run_step with
      (i' := {| Joined.left_it := i; Joined.left_end := ee;
                Joined.current_rights := rights_of l;
                Joined.current_right_index := N.of_nat (S n) |}); simpl.
    + done.
    + unfold Joined.neq. simpl. by rewrite Hneq.
    + done.
    + unfold Joined.incr. simpl. rewrite Hne. simpl.
      rewrite size_succ_small by lia.
      apply N.ltb_lt in Hmore. rewrite Hmore.
      by replace (N.of_nat n + 1) with (N.of_nat (S n)) by lia.
    + rewrite <- Hrows. apply IH; lia.
  - apply Run_step with (i' := jn); simpl.
    + done.
    + unfold Joined.neq. simpl. by rewrite Hneq.
    + done.
    + unfold Joined.incr. simpl. rewrite Hne. simpl.
      rewrite size_succ_small by lia.
      apply N.ltb_ge in Hlast. rewrite Hlast.
      unfold Joined.next_left. simpl. rewrite Hi. simpl. exact Hjn.
    + rewrite drop_ge by (rewrite length_map; lia). done.
Qed.

(** The single row of a left element without right match. *)
Lemma Joined_Run_unmatched (E : Iter joined) (i i' ee : Iter left_stream) (l : Left)
    (rest : list (JoinResult Left Right)) :
  getIsEnd left_stream i = false ->
  neq left_stream i (Joined.left_it left_stream E) = Value true ->
  deref left_stream i = Value l ->
  incr left_stream i = Value i' ->
  (forall stale, exists j,
      Joined.advanceToNextValid left_stream left_key right_map
        {| Joined.left_it := i'; Joined.left_end := ee;
           Joined.current_rights := stale; Joined.current_right_index := 0 |}
      = Value j /\ Run joined E j rest) ->
  rights_of l = [] ->
  Run joined E
    {| Joined.left_it := i; Joined.left_end := ee;
       Joined.current_rights := rights_of l;
       Joined.current_right_index := 0 |}
    (rows_of l ++ rest).
Proof.
  intros Hend Hneq Hd Hi Hnext Hnone.
  destruct (Hnext []) as (jn & Hjn & Hrunn).
  unfold rows_of. rewrite Hnone. simpl.
  apply Run_step with (i' := jn); simpl.
  - done.
  - unfold Joined.neq. simpl. by rewrite Hneq.
  - unfold Joined.deref. simpl. by rewrite Hd.
  - unfold Joined.incr, Joined.next_left. simpl. rewrite Hi. simpl. exact Hjn.
  - done.
Qed.

Lemma Joined_Run_from (E : Iter joined) (i : Iter left_stream) (ls : list Left) :
  Joined.current_right_index left_stream E = 0 ->
  Run left_stream (Joined.left_it left_stream E) i ls ->
  forall (ee : Iter left_stream) (stale : list Right),
  exists j,
    Joined.advanceToNextValid left_stream left_key right_map
      {| Joined.left_it := i; Joined.left_end := ee;
         Joined.current_rights := stale; Joined.current_right_index := 0 |}
    = Value j /\ Run joined E j (flat_map rows_of ls).
Proof using rights_fit.
  intros HE.
  induction 1 as [i Hend Hneq | i l i' ls Hend Hneq Hd Hi Hrun IH];
    intros ee stale.
  - eexists. split; [by apply advanceToNextValid_at_end|].
    apply Run_end; simpl; [done|].
    unfold Joined.neq. simpl. by rewrite Hneq, HE.
  - eexists. split; [by apply advanceToNextValid_at|]. simpl.
    destruct (rights_of l) as [|r rights] eqn:Hrights.
    + rewrite <- Hrights.
      by apply (Joined_Run_unmatched E i i' ee l _ Hend Hneq Hd Hi (IH ee)).
    + rewrite <- Hrights.
      apply (Joined_Run_rights E i i' ee l _ Hend Hneq Hd Hi (IH ee)
               (length (rights_of l)) 0%nat); [lia|].
      rewrite Hrights. simpl. lia.
Qed.

Lemma JoinedWith_Emits (ls : list Left) :
  Emits left_stream ls -> Emits joined (flat_map rows_of ls).
Proof using rights_fit.
  intros (b & e & Hb & He & Hend & Hrun).
  set (E := {| Joined.left_it := e; Joined.left_end := e;
               Joined.current_rights := []; Joined.current_right_index := 0 |}
            : Iter joined).
  destruct (Joined_Run_from E b ls eq_refl Hrun e []) as (j & Hj & Hrunj).
  exists j, E. split; [|split; [|split]].
  - cbn. rewrite Hb, He. cbn. exact Hj.
  - cbn. rewrite He. cbn. by apply advanceToNextValid_at_end.
  - cbn. unfold Joined.getIsEnd. cbn. done.
  - done.
Qed.
End JoinedFacts.

Section BuildRightMapFacts.
Context {RS Right K : Type} `{Countable K}.
Context (right_stream : DataStream RS).
Context (right_key : RS -> K) (right_value : RS -> Right).

Let matches_of := matches right_key right_value.

Lemma matches_snoc_same (seen : list RS) (r : RS) :
  matches_of (seen ++ [r]) (right_key r)
  = matches_of seen (right_key r) ++ [right_value r].
Proof.
  unfold matches_of, matches. rewrite filter_app, map_app.
  by rewrite (filter_cons_True (fun y => right_key y = right_key r)) by done.
Qed.

Lemma matches_snoc_other (seen : list RS) (r : RS) (k : K) :
  right_key r <> k -> matches_of (seen ++ [r]) k = matches_of seen k.
Proof.
  intros Hne. unfold matches_of, matches. rewrite filter_app.
  rewrite (filter_cons_False (fun y => right_key y = k)) by done.
  by rewrite filter_nil, app_nil_r.
Qed.

Lemma matches_length (rs : list RS) (k : K) :
  (length (matches_of rs k) <= length rs)%nat.
Proof. unfold matches_of, matches. rewrite length_map. apply length_filter. Qed.

(** [right_map] after the right elements [seen]: every key that
    occurred holds its values in insertion order, no other key is
    present. *)
Lemma push_back_built (seen : list RS) (r : RS) (m : gmap K (list Right)) :
  (forall k, default [] (m !! k) = matches_of seen k) ->
  (forall k rights, m !! k = Some rights -> rights <> []) ->
  (forall k, default [] (Joined.push_back m (right_key r) (right_value r) !! k)
             = matches_of (seen ++ [r]) k) /\
  (forall k rights,
      Joined.push_back m (right_key r) (right_value r) !! k = Some rights ->
      rights <> []).
Proof.
  intros Hm Hne. unfold Joined.push_back. split.
  - intros k. rewrite lookup_insert.
    destruct (decide (right_key r = k)) as [<-|Hk]; simpl.
    + by rewrite Hm, matches_snoc_same.
    + by rewrite Hm, matches_snoc_other.
  - intros k rights. rewrite lookup_insert.
    destruct (decide (right_key r = k)) as [<-|Hk]; simpl.
    + intros [= <-]. by destruct (default [] (m !! right_key r)).
    + apply Hne.
Qed.

Lemma buildRightMap_loop_Run (e i : Iter right_stream) (rs : list RS) :
  Run right_stream e i rs ->
  forall (fuel : nat) (seen : list RS) (m : gmap K (list Right)),
    (length rs < fuel)%nat ->
    (forall k, default [] (m !! k) = matches_of seen k) ->
    (forall k rights, m !! k = Some rights -> rights <> []) ->
    exists m',
      Joined.buildRightMap_loop right_stream right_key right_value fuel i m
      = Value m' /\
      (forall k, default [] (m' !! k) = matches_of (seen ++ rs) k) /\
      (forall k rights, m' !! k = Some rights -> rights <> []).
Proof.
  induction 1 as [i Hend Hneq | i r i' rs Hend Hneq Hd Hi Hrun IH];
    intros fuel seen m Hfuel Hm Hne;
    (destruct fuel as [|fuel]; [simpl in Hfuel; lia|]); simpl.
  - rewrite Hend. exists m. by rewrite app_nil_r.
  - rewrite Hend, Hd. simpl. rewrite Hi. simpl.
    destruct (push_back_built seen r m Hm Hne) as [Hm' Hne'].
    destruct (IH fuel (seen ++ [r]) _ ltac:(simpl in Hfuel; lia) Hm' Hne')
      as (m' & Hloop & Hm'' & Hne'').
    exists m'. split; [done|]. split; [|done].
    intros k. by rewrite Hm'', <- app_assoc.
Qed.

Lemma buildRightMap_Emits (rs : list RS) (fuel : nat) :
  Emits right_stream rs -> (length rs < fuel)%nat ->
  exists m,
    Joined.buildRightMap right_stream right_key right_value fuel = Value m /\
    (forall k, default [] (m !! k) = matches_of rs k) /\
    (forall k rights, m !! k = Some rights -> rights <> []).
Proof.
  intros (b & e & Hb & He & _ & Hrun) Hfuel.
  unfold Joined.buildRightMap. rewrite Hb, He. simpl.
  apply (buildRightMap_loop_Run e b rs Hrun fuel [] ∅ Hfuel).
  - intros k. by rewrite lookup_empty.
  - intros k rights. by rewrite lookup_empty.
Qed.
End BuildRightMapFacts.

(** ** [Join(right, lkey, rkey)] *)

Section KeyJoinFacts.
Context {L R K : Type} `{EqDecision K}.
Context (policy : emplace_policy).
Context (left : DataStream L) (right : DataStream R).
Context (lkey : L -> K) (rkey : R -> K).

Let entry (r : R) : K * R := (rkey r, r).
Let emplace := @KeyJoin.emplace R K policy.

Lemma fill_Run (e i : Iter right) (rs : list R) :
  end_ptr right = Value e ->
  Run right e i rs ->
  forall (fuel : nat) (m : list (K * R)),
    (length rs < fuel)%nat ->
    KeyJoin.fill policy right rkey fuel i m
    = Value (foldl (fun m r => emplace (rkey r) r m) m rs).
Proof.
  intros He.
  induction 1 as [i Hend Hneq | i r i' rs Hend Hneq Hd Hi Hrun IH];
    intros fuel m Hfuel;
    (destruct fuel as [|fuel]; [simpl in Hfuel; lia|]); simpl.
  - by rewrite He; simpl; rewrite Hneq.
  - rewrite He. simpl. rewrite Hneq. simpl. rewrite Hd. simpl.
    rewrite Hi. simpl. apply IH. simpl in Hfuel. lia.
Qed.

Lemma foldl_emplace (rs : list R) (m : list (K * R)) :
  foldl (fun m r => emplace (rkey r) r m) m rs
  = match policy with
    | AfterEquivalent => m ++ map entry rs
    | BeforeEquivalent => rev (map entry rs) ++ m
    end.
Proof.
  unfold emplace, KeyJoin.emplace.
  revert m. induction rs as [|r rs IH]; intros m; simpl.
  - destruct policy; simpl; by rewrite ?app_nil_r.
  - rewrite IH. destruct policy; simpl.
    + by rewrite <- app_assoc.
    + by rewrite <- app_assoc.
Qed.

Lemma equal_range_app (k : K) (m1 m2 : list (K * R)) :
  KeyJoin.equal_range k (m1 ++ m2)
  = KeyJoin.equal_range k m1 ++ KeyJoin.equal_range k m2.
Proof. unfold KeyJoin.equal_range. by rewrite filter_app, map_app. Qed.

Lemma equal_range_entries (k : K) (rs : list R) :
  KeyJoin.equal_range k (map entry rs) = matches rkey (fun r => r) rs k.
Proof.
  unfold KeyJoin.equal_range, matches.
  induction rs as [|r rs IH]; [done|]. simpl.
  destruct (decide (rkey r = k)) as [Hk|Hk].
  - rewrite (filter_cons_True (fun e : K * R => e.1 = k)) by done.
    rewrite (filter_cons_True (fun r => rkey r = k)) by done.
    simpl. by rewrite IH.
  - rewrite (filter_cons_False (fun e : K * R => e.1 = k)) by done.
    by rewrite (filter_cons_False (fun r => rkey r = k)) by done.
Qed.

Lemma equal_range_rev_entries (k : K) (rs : list R) :
  KeyJoin.equal_range k (rev (map entry rs)) = rev (matches rkey (fun r => r) rs k).
Proof.
  induction rs as [|r rs IH]; [done|]. simpl.
  rewrite equal_range_app, IH.
  unfold KeyJoin.equal_range at 1. unfold matches.
  destruct (decide (rkey r = k)) as [Hk|Hk].
  - rewrite (filter_cons_True (fun e : K * R => e.1 = k)) by done.
    rewrite (filter_cons_True (fun r => rkey r = k)) by done.
    done.
  - rewrite (filter_cons_False (fun e : K * R => e.1 = k)) by done.
    rewrite (filter_cons_False (fun r => rkey r = k)) by done.
    simpl. by rewrite app_nil_r.
Qed.

(** What [equal_range] returns once the right stream [rs] is stored. *)
Lemma equal_range_filled (k : K) (rs : list R) :
  KeyJoin.equal_range k (foldl (fun m r => emplace (rkey r) r m) [] rs)
  = equal_range_order policy (matches rkey (fun r => r) rs k).
Proof.
  rewrite foldl_emplace. unfold equal_range_order. destruct policy.
  - apply equal_range_entries.
  - rewrite app_nil_r. apply equal_range_rev_entries.
Qed.

Lemma rows_for_join_rows (m : list (K * R)) (l : L) :
  KeyJoin.rows_for lkey m l = join_rows l (KeyJoin.equal_range (lkey l) m).
Proof. unfold KeyJoin.rows_for, join_rows. by destruct (KeyJoin.equal_range _ _). Qed.

Lemma emit_Run (m : list (K * R)) (e i : Iter left) (ls : list L) :
  end_ptr left = Value e ->
  Run left e i ls ->
  forall (fuel : nat) (result : list (JoinResult L R)),
    (length ls < fuel)%nat ->
    KeyJoin.emit left lkey fuel m i result
    = Value (result ++ flat_map (KeyJoin.rows_for lkey m) ls).
Proof.
  intros He.
  induction 1 as [i Hend Hneq | i l i' ls Hend Hneq Hd Hi Hrun IH];
    intros fuel result Hfuel;
    (destruct fuel as [|fuel]; [simpl in Hfuel; lia|]); simpl.
  - rewrite He. simpl. rewrite Hneq. simpl. by rewrite app_nil_r.
  - rewrite He. simpl. rewrite Hneq. simpl. rewrite Hd. simpl.
    rewrite Hi. simpl. rewrite IH by (simpl in Hfuel; lia).
    by rewrite <- app_assoc.
Qed.

(** The rows the key-function join stores, for any two input streams. *)
Lemma KeyJoin_rows_Emits (ls : list L) (rs : list R) (fuel : nat) :
  Emits left ls -> Emits right rs ->
  (length ls < fuel)%nat -> (length rs < fuel)%nat ->
  KeyJoin.rows policy left right lkey rkey fuel
  = Value (flat_map
             (fun l => join_rows l
                (equal_range_order policy (matches rkey (fun r => r) rs (lkey l))))
             ls).
Proof.
  intros (bl & el & Hbl & Hel & _ & Hrunl) (br & er & Hbr & Her & _ & Hrunr) Hl Hr.
  unfold KeyJoin.rows. rewrite Hbr. simpl.
  rewrite (fill_Run er br rs Her Hrunr fuel [] Hr). simpl.
  rewrite Hbl. simpl.
  rewrite (emit_Run _ el bl ls Hel Hrunl fuel [] Hl). simpl.
  f_equal. apply flat_map_ext. intros l.
  by rewrite rows_for_join_rows, equal_range_filled.
Qed.
End KeyJoinFacts.

(** ** Both joins against the specification *)

Lemma Joined_construct_Emits {Left RS Right K : Type} `{Countable K} (fuel : nat)
    (left_stream : DataStream Left) (right_stream : DataStream RS)
    (left_key : Left -> K) (right_key : RS -> K) (right_value : RS -> Right)
    (ls : list Left) (rs : list RS) :
  Emits left_stream ls -> Emits right_stream rs ->
  (length rs < fuel)%nat -> N.of_nat (length rs) < size_max ->
  exists s,
    Joined_construct fuel left_stream right_stream left_key right_key right_value
    = Value s /\
    Emits s (left_outer_join left_key right_key right_value ls rs).
Proof.
  intros Hleft Hright Hfuel Hfits.
  destruct (buildRightMap_Emits right_stream right_key right_value rs fuel Hright Hfuel)
    as (m & Hbuild & Hm & _).
  exists (JoinedWith left_stream left_key m). split.
  - unfold Joined_construct. by rewrite Hbuild.
  - unfold left_outer_join.
    erewrite flat_map_ext; [apply JoinedWith_Emits; [|done]|].
    + intros k rights Hk.
      pose proof (Hm k) as Hmk. rewrite Hk in Hmk. simpl in Hmk.
      pose proof (matches_length right_key right_value rs k) as Hlen.
      rewrite <- Hmk in Hlen. lia.
    + intros l. simpl. by rewrite Hm.
Qed.

(** [JoinedDataStream] emits, for each left element in order, one row
    per right element with the same key, in the right stream's insertion
    order, each carrying that element's [value] converted to the stored
    type, or a single row with an absent right value when there is
    none. *)
Lemma JoinedDataStream_insertion_order {Left Right K : Type} `{Countable K}
    (fuel : nat) (left_key : Left -> K) (right_key : Right -> K)
    (right_value : Right -> Right)
    (left : DataStream Left) (right : DataStream Right)
    (ls : list Left) (rs : list Right) :
  Emits left ls -> Emits right rs ->
  (length rs < fuel)%nat -> N.of_nat (length rs) < size_max ->
  exists s,
    JoinedDataStream fuel left_key right_key right_value left right = Value s /\
    Emits s (left_outer_join left_key right_key right_value ls rs).
Proof. apply Joined_construct_Emits. Qed.

(** So does the key-function join when the library appends equivalent
    keys. *)
Lemma Join_insertion_order_when_appended {L R K : Type} `{EqDecision K} (fuel : nat)
    (left : DataStream L) (right : DataStream R) (lkey : L -> K) (rkey : R -> K)
    (ls : list L) (rs : list R) :
  Emits left ls -> Emits right rs ->
  (length ls < fuel)%nat -> (length rs < fuel)%nat ->
  Join AfterEquivalent fuel right lkey rkey left
  = Value (VectorDataStream (left_outer_join lkey rkey (fun r => r) ls rs)).
Proof.
  intros Hl Hr Hfl Hfr. unfold Join.
  by rewrite (KeyJoin_rows_Emits AfterEquivalent left right lkey rkey ls rs fuel).
Qed.

(** C2 (fails on the code for the key-function join).  The claim
    promises the right matches of a key in the right stream's insertion
    order for both join shapes.  [Join(right, lkey, rkey)] reads them
    back from an [std::unordered_multimap]; where the library links a new
    equivalent key in front of the old ones, one left element [1] with
    the right elements [10, 20] under the same key yields the rows
    [(1, 20), (1, 10)], while the promised order is [(1, 10), (1, 20)]. *)
Theorem join_key_function_reverses_matches :
  (let! s := Join BeforeEquivalent 3 (AsDataFlow [10; 20])
               (fun _ : N => 0) (fun _ : N => 0) (AsDataFlow [1]) in
   AsVector 3 s)
  = Value [Build_JoinResult 1 (Some 20); Build_JoinResult 1 (Some 10)]
  /\ left_outer_join (fun _ : N => 0) (fun _ : N => 0) (fun r => r) [1] [10; 20]
     = [Build_JoinResult 1 (Some 10); Build_JoinResult 1 (Some 20)].
Proof. split; vm_compute; reflexivity. Qed.

Lemma join_rows_group {L R : Type} (l : L) (rights : list R) :
  left_outer_group l (length rights) (join_rows l rights).
Proof.
  unfold left_outer_group, join_rows.
  destruct rights as [|r rights].
  - simpl. split; [done|]. split; [by repeat constructor|].
    split; [done|]. lia.
  - split; [by rewrite length_map|].
    split; [by apply Forall_map, Forall_forall|].
    split; [done|]. intros _. apply Forall_map, Forall_forall. by eexists.
Qed.

Lemma Forall2_map_self {A B : Type} (P : A -> B -> Prop) (f : A -> B) (l : list A) :
  (forall x, P x (f x)) -> Forall2 P l (map f l).
Proof. intros HP. induction l; simpl; constructor; auto. Qed.

Lemma equal_range_order_length {R : Type} (policy : emplace_policy) (ms : list R) :
  length (equal_range_order policy ms) = length ms.
Proof. destruct policy; simpl; [done|apply length_rev]. Qed.

(** C6.  Both joins are left-outer.  Over any left stream [ls] and right
    stream [rs] the join returns without raising anything, and its rows
    are, for each left element in turn, one group of [max 1 k] rows
    carrying that element, where [k] counts the right elements with its
    key; the single row for [k = 0] has an absent right value.  The first
    part is the class-based join, the second [Join(right, lkey, rkey)],
    whatever the library's placement of equivalent keys. *)
Theorem join_left_outer {L RS R K : Type} `{Countable K} (fuel : nat)
    (policy : emplace_policy) (left : DataStream L) (right : DataStream RS)
    (left_key : L -> K) (right_key : RS -> K) (right_value : RS -> R)
    (ls : list L) (rs : list RS) :
  Emits left ls -> Emits right rs ->
  (length ls < fuel)%nat -> (length rs < fuel)%nat ->
  N.of_nat (length rs) < size_max ->
  (exists s groups,
      Joined_construct fuel left right left_key right_key right_value = Value s /\
      Emits s (concat groups) /\
      Forall2 (fun l g => left_outer_group l (match_count right_key rs (left_key l)) g)
        ls groups) /\
  (exists groups,
      Join policy fuel right left_key right_key left
      = Value (VectorDataStream (concat groups)) /\
      Forall2 (fun l g => left_outer_group l (match_count right_key rs (left_key l)) g)
        ls groups).
Proof.
  intros Hl Hr Hfl Hfr Hfits. split.
  - destruct (Joined_construct_Emits fuel left right left_key right_key right_value
                ls rs Hl Hr Hfr Hfits) as (s & Hs & Hemits).
    exists s, (map (fun l => join_rows l
                      (matches right_key right_value rs (left_key l))) ls).
    split; [done|]. split.
    + by rewrite <- flat_map_concat_map.
    + apply Forall2_map_self. intros l.
      replace (match_count right_key rs (left_key l))
        with (length (matches right_key right_value rs (left_key l)))
        by (unfold matches; apply length_map).
      apply join_rows_group.
  - exists (map (fun l => join_rows l
                   (equal_range_order policy
                      (matches right_key (fun r => r) rs (left_key l)))) ls).
    split.
    + unfold Join.
      rewrite (KeyJoin_rows_Emits policy left right left_key right_key ls rs fuel)
        by done.
      simpl. by rewrite flat_map_concat_map.
    + apply Forall2_map_self. intros l.
      replace (match_count right_key rs (left_key l))
        with (length (equal_range_order policy
                        (matches right_key (fun r => r) rs (left_key l))))
        by (rewrite equal_range_order_length; unfold matches; apply length_map).
      apply join_rows_group.
Qed.

Lemma join_left_outer_witness :
  (exists s groups,
      Joined_construct 4 (AsDataFlow [1; 3]) (AsDataFlow [10; 11; 20])
        (fun l => l) (fun r => r / 10) (fun r => r) = Value s /\
      Emits s (concat groups) /\
      Forall2 (fun l g =>
                 left_outer_group l (match_count (fun r => r / 10) [10; 11; 20] l) g)
        [1; 3] groups) /\
  (exists groups,
      Join BeforeEquivalent 4 (AsDataFlow [10; 11; 20])
        (fun l => l) (fun r => r / 10) (AsDataFlow [1; 3])
      = Value (VectorDataStream (concat groups)) /\
      Forall2 (fun l g =>
                 left_outer_group l (match_count (fun r => r / 10) [10; 11; 20] l) g)
        [1; 3] groups).
Proof.
  apply (join_left_outer 4 BeforeEquivalent (AsDataFlow [1; 3])
           (AsDataFlow [10; 11; 20]) (fun l => l) (fun r => r / 10) (fun r => r)
           [1; 3] [10; 11; 20]).
  - apply Vector_Emits; [vm_compute; reflexivity|discriminate].
  - apply Vector_Emits; [vm_compute; reflexivity|discriminate].
  - simpl. lia.
  - simpl. lia.
  - vm_compute. reflexivity.
Defined.

(** A left element with two matches and one without, through the
    class-based join. *)
Example joined_rows :
  (let! s := JoinedWithKeyDataStream 4 (AsDataFlow [1; 3]) (AsDataFlow [10; 11; 20])
               (fun l => l) (fun r => r / 10) in
   AsVector 4 s)
  = Value [Build_JoinResult 1 (Some 10); Build_JoinResult 1 (Some 11);
           Build_JoinResult 3 None].
Proof. vm_compute. reflexivity. Qed.

(** ** The file-content source *)

(** C1 (fails on the code).  The claim promises that the line reader
    never emits an empty string.  [open_next_file] tests the first line
    of a file for emptiness, [operator++] does not test the later ones:
    a single file with the lines ["a"], [""], ["b"] is emitted as it
    stands, empty line included. *)
Theorem file_source_emits_empty_line :
  AsVector 4
    (OpenFiles 2
       (fun p : N =>
          if p =? 1 then Some [list_ascii_of_string "a"; []; list_ascii_of_string "b"]
          else None)
       (AsDataFlow [1]))
  = Value [list_ascii_of_string "a"; []; list_ascii_of_string "b"].
Proof. vm_compute. reflexivity. Qed.

(** One turn of the loop of [open_next_file] on a file that opens
    without a non-empty first line: the body runs [++*path_it] twice. *)
Lemma open_next_file_loop_double_advance {Path : Type}
    (files : Path -> option (list std_string)) (up : DataStream Path)
    (fuel : nat) (i i1 i2 : Iter up) (e : option (Iter up)) (log : list Path)
    (p : Path) (ls : list std_string) :
  getIsEnd up i = false ->
  File.differs_from_end up i e = Value true ->
  deref up i = Value p ->
  files p = Some ls ->
  head ls = None \/ head ls = Some [] ->
  incr up i = Value i1 ->
  incr up i1 = Value i2 ->
  File.open_next_file_loop files up (S fuel) i e log
  = File.open_next_file_loop files up fuel i2 e (log ++ [p]).
Proof.
  intros Hend Hdiff Hd Hfile Hfirst Hi1 Hi2. simpl.
  rewrite Hend, Hdiff. simpl. rewrite Hd. simpl.
  unfold File.open. rewrite Hfile. simpl. rewrite Hi1. simpl.
  unfold File.getline. simpl.
  destruct ls as [|l ls']; simpl.
  - by rewrite Hi2.
  - destruct Hfirst as [Hnone|Hsome]; [done|].
    injection Hsome as ->. simpl. by rewrite Hi2.
Qed.

(** Three files, the first one empty: the second is skipped unopened,
    only the third is read. *)
Example empty_file_hides_next :
  let files := fun p : N =>
    if p =? 1 then Some []
    else if p =? 2 then Some [list_ascii_of_string "x"]
    else Some [list_ascii_of_string "y"] in
  (let! it := begin_ptr (OpenFiles 4 files (AsDataFlow [1; 2; 3])) in
   Value (File.current_line _ it, File.opened _ it))
  = Value (list_ascii_of_string "y", [1; 3]).
Proof. vm_compute. reflexivity. Qed.

(** ** Reading a cursor that has reported its end *)

(** The file cursor checks [is_end] and throws. *)
Lemma FileIterator_deref_at_end {Path : Type} (up : DataStream Path)
    (f : File.FileIterator up) :
  File.is_end up f = true -> File.deref up f = Throws.
Proof. intros Hend. unfold File.deref. by rewrite Hend. Qed.

(** C7 (fails on the code).  The claim promises that reading any cursor
    after it has signaled its end raises an error, the in-memory source's
    cursor included.  Only the file cursor tests [is_end] in [operator*].
    The cursor of the source [[7]], advanced once, reports its end and its
    [operator*] subscripts the vector at index 1, past its only element:
    nothing is thrown and the read has no defined result.  The split
    cursor at its end hands back its empty [current_line] as if it were an
    element. *)
Theorem deref_after_end_not_raised :
  (let! it := incr (AsDataFlow [7]) (Vector.make [7]) in
   Value (getIsEnd (AsDataFlow [7]) it, deref (AsDataFlow [7]) it))
  = Value (true, Undefined)
  /\
  (let s := Split 2 (list_ascii_of_string ",") (AsDataFlow [list_ascii_of_string "a"]) in
   let! b := begin_ptr s in
   let! it := incr s b in
   Value (getIsEnd s it, deref s it))
  = Value (true, Value []).
Proof. split; vm_compute; reflexivity. Qed.

(** ** End monotonicity *)

Lemma advance_succ {T : Type} (s : DataStream T) (n : N) (i : Iter s) :
  advance s (N.succ n) i = obind (advance s n i) (incr s).
Proof. unfold advance. by rewrite N.iter_succ. Qed.

Lemma EndSticky_EndStaysFrom {T : Type} (s : DataStream T) :
  EndSticky s -> forall i, EndStaysFrom s i.
Proof.
  intros Hsticky i n m j k _. revert k.
  induction m as [|m IH] using N.peano_ind; intros k Hk Hend.
  - unfold advance in Hk. simpl in Hk. by injection Hk as <-.
  - rewrite advance_succ in Hk.
    apply obind_Value in Hk as (k' & Hk' & Hincr).
    eapply Hsticky; [|exact Hincr]. by apply IH.
Qed.

Lemma Vector_EndSticky {T : Type} (d : list T) : EndSticky (VectorDataStream d).
Proof.
  intros i i' Hend [= <-]. simpl in *. unfold Vector.getIsEnd, Vector.incr in *.
  destruct (Vector.data i) as [d'|]; [|done].
  by destruct (N.of_nat (length d') <=? size_succ (Vector.index i)).
Qed.

Lemma skip_non_regular_files_ended {Path : Type} (entries : list (Path * bool))
    (r : bool) :
  Dir.is_end (Dir.skip_non_regular_files entries r true) = true.
Proof.
  induction entries as [|[p regular] rest IH]; simpl; [done|].
  by destruct regular.
Qed.

Lemma Dir_EndSticky {Path : Type} (entries : list (Path * bool)) (r : bool) :
  EndSticky (DirStream entries r).
Proof.
  intros i i' Hend Hincr. simpl in *. unfold Dir.getIsEnd, Dir.incr in *.
  destruct (Dir.iterator i) as [|entry rest]; [done|].
  injection Hincr as <-. rewrite Hend. apply skip_non_regular_files_ended.
Qed.

Lemma File_EndSticky {Path : Type} (fuel : nat)
    (files : Path -> option (list std_string)) (up : DataStream Path) :
  EndSticky (FileContentStream fuel files up).
Proof.
  intros i i' Hend Hincr. simpl in *. unfold File.getIsEnd, File.incr in *.
  rewrite Hend in Hincr. by injection Hincr as <-.
Qed.

Lemma skipInvalid_at_end {T : Type} (up : DataStream T) (predicate : T -> bool)
    (fuel : nat) (i i' : Iter up) :
  getIsEnd up i = true ->
  Filtered.skipInvalid up predicate fuel i = Value i' -> i' = i.
Proof.
  intros Hend. destruct fuel as [|fuel]; simpl; [done|].
  rewrite Hend. by intros [= <-].
Qed.

Lemma Filtered_EndSticky {T : Type} (fuel : nat) (up : DataStream T)
    (predicate : T -> bool) :
  EndSticky up -> EndSticky (FilteredDataStream fuel up predicate).
Proof.
  intros Hup f f' Hend Hincr. simpl in *.
  unfold Filtered.getIsEnd, Filtered.incr in *.
  apply obind_Value in Hincr as (i & Hi & Hincr).
  apply obind_Value in Hincr as (i' & Hskip & Hf').
  injection Hf' as <-. simpl.
  pose proof (Hup _ _ Hend Hi) as Hend'.
  by rewrite (skipInvalid_at_end up predicate fuel i i' Hend' Hskip).
Qed.

Lemma Transformed_EndSticky {T : Type} (up : DataStream T) (transform_func : T -> T) :
  EndSticky up -> EndSticky (TransformedDataStream up transform_func).
Proof.
  intros Hup t t' Hend Hincr. simpl in *.
  unfold Transformed.getIsEnd, Transformed.incr in *.
  apply obind_Value in Hincr as (i & Hi & Ht').
  injection Ht' as <-. simpl. by apply (Hup _ _ Hend Hi).
Qed.

Lemma Split_EndSticky (fuel : nat) (up : DataStream std_string)
    (filter_string : std_string) :
  EndSticky (SplitDataStream fuel up filter_string).
Proof.
  intros st st' Hend Hincr. simpl in *.
  unfold Split.getIsEnd, Split.incr, Split.skipToNext in *.
  apply andb_true_iff in Hend as [Hup Hcur].
  destruct fuel as [|fuel]; simpl in Hincr; [done|].
  rewrite Hup in Hincr. injection Hincr as <-. simpl. by rewrite Hup.
Qed.

Lemma Joined_EndSticky {Left Right K : Type} `{Countable K}
    (left_stream : DataStream Left) (left_key : Left -> K)
    (right_map : gmap K (list Right)) :
  EndSticky left_stream -> EndSticky (JoinedWith left_stream left_key right_map).
Proof.
  intros Hleft j j' Hend Hincr. simpl in *.
  unfold Joined.getIsEnd in *.
  assert (Hnext : forall j1,
    Joined.next_left left_stream left_key right_map j = Value j1 ->
    getIsEnd left_stream (Joined.left_it left_stream j1) = true).
  { intros j1 Hj1. unfold Joined.next_left in Hj1.
    apply obind_Value in Hj1 as (i & Hi & Hadv).
    pose proof (Hleft _ _ Hend Hi) as Hend'.
    rewrite advanceToNextValid_at_end in Hadv by done.
    by injection Hadv as <-. }
  unfold Joined.incr in Hincr.
  destruct (negb (Joined.is_empty (Joined.current_rights left_stream j)));
    [|by apply Hnext].
  destruct (size_succ (Joined.current_right_index left_stream j)
            <? N.of_nat (length (Joined.current_rights left_stream j)));
    [|by apply Hnext].
  by injection Hincr as <-.
Qed.

(** The aggregate cursor: [n] advances add [n] to the index, modulo the
    range of [size_t]. *)
Lemma AggregateResults_advance {K Acc : Type} (rs : list (K * Acc)) (n : N)
    (a : Iter (AggregateResults rs)) :
  Aggregate.index_ a < size_max ->
  advance (AggregateResults rs) n a
  = Value {| Aggregate.results_ := Aggregate.results_ a;
             Aggregate.index_ := (Aggregate.index_ a + n) mod size_max |}.
Proof.
  intros Hfit. induction n as [|n IH] using N.peano_ind.
  - unfold advance. simpl. destruct a as [results index]. simpl in *.
    by rewrite N.add_0_r, N.mod_small.
  - rewrite advance_succ, IH. simpl. unfold Aggregate.incr, size_succ. simpl.
    do 2 f_equal. rewrite N.Div0.add_mod_idemp_l. f_equal. lia.
Qed.

Lemma AggregateResults_end_stays_bounded {K Acc : Type} (rs : list (K * Acc))
    (n m : N) (j k : Iter (AggregateResults rs)) :
  advance (AggregateResults rs) n
    {| Aggregate.results_ := rs; Aggregate.index_ := 0 |} = Value j ->
  advance (AggregateResults rs) m j = Value k ->
  n + m < size_max ->
  getIsEnd (AggregateResults rs) j = true ->
  getIsEnd (AggregateResults rs) k = true.
Proof.
  intros Hj Hk Hbound Hend.
  rewrite AggregateResults_advance in Hj by done.
  injection Hj as <-. simpl in Hk, Hend.
  rewrite AggregateResults_advance in Hk
    by (simpl; apply N.mod_upper_bound; done).
  injection Hk as <-. simpl in *.
  unfold Aggregate.getIsEnd in *. simpl in *.
  rewrite N.Div0.add_mod_idemp_l.
  rewrite N.mod_small in Hend by lia.
  rewrite N.mod_small by lia.
  apply N.leb_le in Hend. apply N.leb_le. lia.
Qed.

(** C9 as stated fails: the aggregate cursor has no end flag, its
    [getIsEnd] compares the [size_t] index with the number of results.
    On one result, the cursor reports its end after one advance and
    reports not-ended again once [2^64 - 1] further advances have wrapped
    the index to 0. *)
Lemma end_flag_reset_by_wraparound :
  ~ EndStaysFrom (AggregateResults [(0, 0)])
      {| Aggregate.results_ := [(0, 0)]; Aggregate.index_ := 0 |}.
Proof.
  intros Hstays.
  specialize (Hstays 1 (size_max - 1)
                {| Aggregate.results_ := [(0, 0)]; Aggregate.index_ := 1 |}
                {| Aggregate.results_ := [(0, 0)]; Aggregate.index_ := 0 |}).
  assert (Hfalse : false = true); [|done].
  apply Hstays.
  - reflexivity.
  - rewrite AggregateResults_advance by (vm_compute; reflexivity).
    simpl. do 2 f_equal.
  - reflexivity.
Qed.

(** C9, amended.  End-of-stream is monotone for every cursor of the
    library that keeps an end flag or takes it from its upstream: the
    in-memory source, the directory source, the file source and the
    split adapter unconditionally, the filter, transform and join
    adapters over any upstream that is itself monotone.  For such a
    stream, once a cursor reports its end every cursor reached by further
    advances reports it too.  The aggregate cursor is monotone as long as
    the advances made since [begin] number fewer than [2^64]. *)
Theorem end_monotone :
  (forall (T : Type) (d : list T), EndSticky (VectorDataStream d)) /\
  (forall (Path : Type) (entries : list (Path * bool)) (r : bool),
      EndSticky (DirStream entries r)) /\
  (forall (Path : Type) (fuel : nat) (files : Path -> option (list std_string))
          (up : DataStream Path),
      EndSticky (FileContentStream fuel files up)) /\
  (forall (fuel : nat) (up : DataStream std_string) (filter_string : std_string),
      EndSticky (SplitDataStream fuel up filter_string)) /\
  (forall (T : Type) (fuel : nat) (up : DataStream T) (predicate : T -> bool),
      EndSticky up -> EndSticky (FilteredDataStream fuel up predicate)) /\
  (forall (T : Type) (up : DataStream T) (transform_func : T -> T),
      EndSticky up -> EndSticky (TransformedDataStream up transform_func)) /\
  (forall (Left Right K : Type) (EqK : EqDecision K) (CK : Countable K)
          (left_stream : DataStream Left) (left_key : Left -> K)
          (right_map : gmap K (list Right)),
      EndSticky left_stream ->
      EndSticky (JoinedWith left_stream left_key right_map)) /\
  (forall (T : Type) (s : DataStream T),
      EndSticky s -> forall i, EndStaysFrom s i) /\
  (forall (K Acc : Type) (rs : list (K * Acc)) (n m : N)
          (j k : Iter (AggregateResults rs)),
      advance (AggregateResults rs) n
        {| Aggregate.results_ := rs; Aggregate.index_ := 0 |} = Value j ->
      advance (AggregateResults rs) m j = Value k ->
      n + m < size_max ->
      getIsEnd (AggregateResults rs) j = true ->
      getIsEnd (AggregateResults rs) k = true).
Proof.
  repeat split.
  - intros T d. apply Vector_EndSticky.
  - intros Path entries r. apply Dir_EndSticky.
  - intros Path fuel files up. apply File_EndSticky.
  - intros fuel up filter_string. apply Split_EndSticky.
  - intros T fuel up predicate. apply Filtered_EndSticky.
  - intros T up transform_func. apply Transformed_EndSticky.
  - intros Left Right K EqK CK left_stream left_key right_map.
    apply Joined_EndSticky.
  - intros T s. apply EndSticky_EndStaysFrom.
  - intros K Acc rs n m j k. apply AggregateResults_end_stays_bounded.
Qed.

(** ** The split cursor at an element boundary

    When the scan reaches the end of the current element with a run in
    progress, [skipToNext] advances the upstream cursor and returns at
    once with that run as the token: the new element is not read. *)
Lemma skipToNext_stops_at_element_end (up : DataStream std_string) (D : gset ascii)
    (fuel pos pos' : nat) (i i' ee : Iter up) (line cur' : std_string) :
  getIsEnd up i = false ->
  deref up i = Value line ->
  incr up i = Value i' ->
  Split.scan D (drop pos line) pos [] = (false, pos', cur') ->
  cur' <> [] ->
  Split.skipToNext_loop up D (S fuel) i ee pos []
  = Value {| Split.it := i'; Split.end_ := ee;
             Split.current_line := cur'; Split.pos_in_line := 0 |}.
Proof.
  intros Hend Hd Hi Hscan Hcur. simpl.
  rewrite Hend, Hd. simpl. rewrite Hscan, Hi. simpl.
  by destruct cur'.
Qed.

(** ** Scenarios of the test suite *)

(** [FilterEvenAndSquare] *)
Example filter_even_and_square :
  AsVector 9
    (Transform (fun x => x * x)
       (Filter 9 (fun x => x mod 2 =? 0) (AsDataFlow [1; 2; 3; 4; 5; 6; 7; 8])))
  = Value [4; 16; 36; 64].
Proof. vm_compute. reflexivity. Qed.

(** [CombinedOperations] *)
Example combined_operations :
  AsVector 6
    (Filter 6 (fun x => negb (x mod 2 =? 0))
       (Transform (fun x => x + 10) (AsDataFlow [1; 2; 3; 4; 5])))
  = Value [11; 13; 15].
Proof. vm_compute. reflexivity. Qed.

(** [CountLinesInFiles]: two files in a flat directory, read line by
    line and split on the newline character. *)
Example count_lines_in_files :
  (let! dir := Dir_ true [(1, true); (2, true)] false in
   AsVector 6
     (Split 6 [ascii_of_nat 10]
        (OpenFiles 6
           (fun p : N =>
              if p =? 1 then Some (map list_ascii_of_string ["line1"; "line2"; "line3"]%string)
              else Some (map list_ascii_of_string ["row1"; "row2"]%string))
           dir)))
  = Value (map list_ascii_of_string ["line1"; "line2"; "line3"; "row1"; "row2"]%string).
Proof. vm_compute. reflexivity. Qed.

(** [NonExistentDirectory] *)
Example non_existent_directory :
  Dir_ (Path := N) false [] true = Throws.
Proof. reflexivity. Qed.

(** * Further properties of the library *)

(** ** The in-memory source, collected *)

(** Collecting a non-empty in-memory source returns the vector it was
    built from. *)
Theorem source_collect_roundtrip {T : Type} (d : list T) (fuel : nat) :
  d <> [] -> N.of_nat (length d) < size_max -> (length d < fuel)%nat ->
  AsVector fuel (AsDataFlow d) = Value d.
Proof.
  intros Hne Hfits Hfuel. apply AsVector_Emits; [|done]. by apply Vector_Emits.
Qed.

Lemma source_collect_roundtrip_witness :
  AsVector 4 (AsDataFlow [3; 1; 2]) = Value [3; 1; 2].
Proof.
  apply (source_collect_roundtrip [3; 1; 2] 4).
  - discriminate.
  - vm_compute. reflexivity.
  - simpl. lia.
Defined.

(** ** The filter adapter *)

Section FilterFacts.
Context {T : Type} (up : DataStream T) (predicate : T -> bool) (fuel : nat).

Let filtered : DataStream T := FilteredDataStream fuel up predicate.

(** [skipInvalid] stops on the first element that satisfies the
    predicate, or at the end of the upstream. *)
Lemma skipInvalid_Run (e i : Iter up) (xs : list T) :
  Run up e i xs ->
  forall fuel' : nat,
  (length xs < fuel')%nat ->
  exists i' ys,
    Filtered.skipInvalid up predicate fuel' i = Value i' /\
    Run up e i' ys /\
    List.filter predicate ys = List.filter predicate xs /\
    (length ys <= length xs)%nat /\
    match ys with [] => True | y :: _ => predicate y = true end.
Proof.
  induction 1 as [i Hend Hneq | i x i' xs Hend Hneq Hd Hi Hrun IH];
    intros fuel' Hfuel; (destruct fuel' as [|fuel']; [simpl in Hfuel; lia|]); simpl.
  - rewrite Hend. exists i, []. split; [done|]. split; [by apply Run_end|]. done.
  - rewrite Hend, Hd. simpl.
    destruct (predicate x) eqn:Hp.
    + exists i, (x :: xs). split; [done|]. split; [by eapply Run_step|].
      split; [by simpl; rewrite Hp|]. split; [done|]. done.
    + rewrite Hi. simpl.
      destruct (IH fuel') as (i'' & ys & Hskip & Hrun' & Hfilter & Hlen & Hhead).
      { simpl in Hfuel. lia. }
      exists i'', ys. split; [done|]. split; [done|]. split; [done|].
      split; [lia|done].
Qed.

Lemma Filtered_Run (E : Iter filtered) (n : nat) :
  forall (ys : list T) (i ee : Iter up),
    (length ys <= n)%nat ->
    (length ys < fuel)%nat ->
    Run up (Filtered.it up E) i ys ->
    match ys with [] => True | y :: _ => predicate y = true end ->
    Run filtered E {| Filtered.it := i; Filtered.end_ := ee |}
      (List.filter predicate ys).
Proof.
  induction n as [|n IH]; intros ys i ee Hn Hfuel Hrun Hhead.
  - destruct ys; [|simpl in Hn; lia].
    inversion Hrun; subst. by apply Run_end.
  - inversion Hrun as [i0 Hend Hneq | i0 y i' ys' Hend Hneq Hd Hi Hrun']; subst.
    + by apply Run_end.
    + simpl. rewrite Hhead.
      destruct (skipInvalid_Run _ i' ys' Hrun' fuel) as
        (i'' & zs & Hskip & Hrunz & Hfilter & Hlen & Hheadz).
      { simpl in Hfuel. lia. }
      rewrite <- Hfilter.
      apply Run_step with (i' := {| Filtered.it := i''; Filtered.end_ := ee |}).
      * done.
      * done.
      * done.
      * simpl. unfold Filtered.incr. simpl. rewrite Hi. simpl.
        by rewrite Hskip.
      * apply IH; [simpl in Hn; lia|simpl in Hfuel; lia|done|done].
Qed.

Lemma Filter_Emits (xs : list T) :
  Emits up xs -> (length xs < fuel)%nat ->
  Emits filtered (List.filter predicate xs).
Proof.
  intros (b & e & Hb & He & Hend & Hrun) Hfuel.
  destruct (skipInvalid_Run e b xs Hrun fuel Hfuel)
    as (b' & ys & Hskip & Hrun' & Hfilter & Hlen & Hhead).
  assert (Hskipe : Filtered.skipInvalid up predicate fuel e = Value e).
  { destruct fuel; [lia|]. simpl. by rewrite Hend. }
  exists {| Filtered.it := b'; Filtered.end_ := e |},
         {| Filtered.it := e; Filtered.end_ := e |}.
  split; [|split; [|split]].
  - cbn. rewrite Hb, He. cbn. unfold Filtered.make. by rewrite Hskip.
  - cbn. rewrite He. cbn. unfold Filtered.make. by rewrite Hskipe.
  - done.
  - rewrite <- Hfilter.
    apply (Filtered_Run {| Filtered.it := e; Filtered.end_ := e |} (length ys));
      [lia|lia|done|done].
Qed.
End FilterFacts.

(** Filter correctness: over any stream that yields [xs], the filtered
    stream yields the elements of [xs] that satisfy the predicate, in
    their order, and collecting it returns them. *)
Theorem filter_collect {T : Type} (fuel : nat) (predicate : T -> bool)
    (up : DataStream T) (xs : list T) :
  Emits up xs -> (length xs < fuel)%nat ->
  Emits (Filter fuel predicate up) (List.filter predicate xs) /\
  AsVector fuel (Filter fuel predicate up) = Value (List.filter predicate xs).
Proof.
  intros Hup Hfuel.
  assert (Hem : Emits (Filter fuel predicate up) (List.filter predicate xs))
    by (by apply Filter_Emits).
  split; [done|]. apply AsVector_Emits; [done|].
  pose proof (List.filter_length_le predicate xs). lia.
Qed.

Lemma filter_collect_witness :
  Emits (Filter 6 (fun x => 2 <? x) (AsDataFlow [1; 5; 2; 7]))
    (List.filter (fun x => 2 <? x) [1; 5; 2; 7]) /\
  AsVector 6 (Filter 6 (fun x => 2 <? x) (AsDataFlow [1; 5; 2; 7]))
  = Value (List.filter (fun x => 2 <? x) [1; 5; 2; 7]).
Proof.
  apply (filter_collect 6 (fun x => 2 <? x) (AsDataFlow [1; 5; 2; 7]) [1; 5; 2; 7]).
  - apply Vector_Emits; [vm_compute; reflexivity|discriminate].
  - simpl. lia.
Defined.

(** ** The transform adapter with a pure function *)

Lemma Transformed_Run {T : Type} (up : DataStream T) (transform_func : T -> T)
    (E : Iter (TransformedDataStream up transform_func)) (i : Iter up) (xs : list T) :
  Run up (Transformed.it up E) i xs ->
  forall ee,
    Run (TransformedDataStream up transform_func) E
      {| Transformed.it := i; Transformed.end_ := ee |} (map transform_func xs).
Proof.
  induction 1 as [i Hend Hneq | i x i' xs Hend Hneq Hd Hi Hrun IH]; intros ee.
  - by apply Run_end.
  - simpl. apply Run_step with
      (i' := {| Transformed.it := i'; Transformed.end_ := ee |}).
    + done.
    + done.
    + simpl. unfold Transformed.deref. simpl. by rewrite Hd.
    + simpl. unfold Transformed.incr. simpl. by rewrite Hi.
    + apply IH.
Qed.

Lemma Transform_Emits {T : Type} (up : DataStream T) (transform_func : T -> T)
    (xs : list T) :
  Emits up xs -> Emits (Transform transform_func up) (map transform_func xs).
Proof.
  intros (b & e & Hb & He & Hend & Hrun).
  exists {| Transformed.it := b; Transformed.end_ := e |},
         {| Transformed.it := e; Transformed.end_ := e |}.
  split; [|split; [|split]].
  - cbn. by rewrite Hb, He.
  - cbn. by rewrite He.
  - done.
  - by apply (Transformed_Run up transform_func
                {| Transformed.it := e; Transformed.end_ := e |}).
Qed.

(** Transform maps: over any stream that yields [xs], the transformed
    stream yields [f x] for each [x] of [xs] in order, so it has as many
    elements as its input, and collecting it returns them. *)
Theorem transform_collect {T : Type} (fuel : nat) (transform_func : T -> T)
    (up : DataStream T) (xs : list T) :
  Emits up xs -> (length xs < fuel)%nat ->
  Emits (Transform transform_func up) (map transform_func xs) /\
  AsVector fuel (Transform transform_func up) = Value (map transform_func xs).
Proof.
  intros Hup Hfuel.
  assert (Hem : Emits (Transform transform_func up) (map transform_func xs))
    by (by apply Transform_Emits).
  split; [done|]. apply AsVector_Emits; [done|]. by rewrite length_map.
Qed.

Lemma transform_collect_witness :
  Emits (Transform (fun x => x * x) (AsDataFlow [1; 2; 3]))
    (map (fun x => x * x) [1; 2; 3]) /\
  AsVector 4 (Transform (fun x => x * x) (AsDataFlow [1; 2; 3]))
  = Value (map (fun x => x * x) [1; 2; 3]).
Proof.
  apply (transform_collect 4 (fun x => x * x) (AsDataFlow [1; 2; 3]) [1; 2; 3]).
  - apply Vector_Emits; [vm_compute; reflexivity|discriminate].
  - simpl. lia.
Defined.

(** ** [DropNullopt] *)

(** Over any stream of optional values, [DropNullopt] yields exactly the
    present ones, still wrapped, in their order. *)
Theorem drop_nullopt_collect {T : Type} (fuel : nat) (up : DataStream (option T))
    (xs : list (option T)) :
  Emits up xs -> (length xs < fuel)%nat ->
  exists ys,
    AsVector fuel (DropNullopt fuel up) = Value ys /\
    ys = List.filter has_value xs /\
    Forall (fun v => is_Some v) ys /\
    omap (fun v => v) ys = omap (fun v => v) xs.
Proof.
  intros Hup Hfuel. exists (List.filter has_value xs).
  split; [|split; [done|split]].
  - apply AsVector_Emits.
    + by apply Filter_Emits.
    + pose proof (List.filter_length_le has_value xs). lia.
  - apply Forall_forall. intros v Hv.
    apply list_elem_of_In, List.filter_In in Hv as [_ Hv].
    destruct v; [by eexists|done].
  - clear. induction xs as [|[x|] xs IH]; simpl; [done|by f_equal|done].
Qed.

Lemma drop_nullopt_collect_witness :
  exists ys,
    AsVector 5 (DropNullopt 5 (AsDataFlow [None; Some 4; None; Some 2])) = Value ys /\
    ys = List.filter has_value [None; Some 4; None; Some 2] /\
    Forall (fun v => is_Some v) ys /\
    omap (fun v => v) ys = omap (fun v => v) [None; Some 4; None; Some 2].
Proof.
  apply (drop_nullopt_collect 5 (AsDataFlow [None; Some 4; None; Some 2])
           [None; Some 4; None; Some 2]).
  - apply Vector_Emits; [vm_compute; reflexivity|discriminate].
  - simpl. lia.
Defined.

(** ** The directory source *)

Lemma Dir_Run {Path : Type} (all entries : list (Path * bool)) (r : bool) :
  Run (DirStream all r) Dir.make_end
    (Dir.skip_non_regular_files entries r false) (regular_files entries).
Proof.
  induction entries as [|[p regular] rest IH]; simpl.
  - by apply Run_end.
  - destruct regular; simpl; [|exact IH].
    eapply Run_step; simpl; try done.
Qed.

(** The directory source yields the regular files among the entries of
    the walk, in the walk's order, and nothing else; a directory without
    regular files, the empty directory included, gives a stream that is
    at its end from the start. *)
Theorem dir_emits_regular_files {Path : Type} (entries : list (Path * bool))
    (r : bool) (fuel : nat) :
  Emits (DirStream entries r) (regular_files entries) /\
  AsVector (S (length entries) + fuel) (DirStream entries r)
  = Value (regular_files entries).
Proof.
  assert (Hem : Emits (DirStream entries r) (regular_files entries)).
  { exists (Dir.make entries r), Dir.make_end.
    split; [done|]. split; [done|]. split; [done|]. apply Dir_Run. }
  split; [done|]. apply AsVector_Emits; [done|].
  unfold regular_files. rewrite length_map.
  pose proof (List.filter_length_le snd entries). lia.
Qed.

(** ** The sinks [Write] and [Out] *)

Lemma Write_loop_Run {T : Type} (show : T -> std_string) (delimiter : ascii)
    (s : DataStream T) (e i : Iter s) (xs : list T) :
  Run s e i xs ->
  forall (fuel : nat) (output : std_string),
    (length xs < fuel)%nat ->
    Write_loop show delimiter fuel s i e output
    = Value (output ++ flat_map (fun x => show x ++ [delimiter]) xs).
Proof.
  induction 1 as [i Hend Hneq | i x i' xs Hend Hneq Hd Hi Hrun IH];
    intros fuel output Hfuel;
    (destruct fuel as [|fuel]; [simpl in Hfuel; lia|]); simpl.
  - rewrite Hneq. simpl. by rewrite app_nil_r.
  - rewrite Hneq. simpl. rewrite Hd. simpl. rewrite Hi. simpl.
    rewrite IH by (simpl in Hfuel; lia). by rewrite <- !app_assoc.
Qed.

(** [Write] appends to the output every element followed by the
    delimiter, the last element included, and leaves what was written
    before in place. *)
Theorem write_trailing_delimiter {T : Type} (show : T -> std_string)
    (delimiter : ascii) (fuel : nat) (output : std_string) (s : DataStream T)
    (xs : list T) :
  Emits s xs -> (length xs < fuel)%nat ->
  Write show delimiter fuel output s
  = Value (output ++ flat_map (fun x => show x ++ [delimiter]) xs).
Proof.
  intros (b & e & Hb & He & _ & Hrun) Hfuel.
  unfold Write. rewrite Hb, He. simpl. by apply Write_loop_Run.
Qed.

Lemma write_trailing_delimiter_witness :
  Write (fun x : N => [ascii_of_N (48 + x)]) ","%char 3 []
    (Filter 6 (fun x => 2 <? x) (AsDataFlow [0; 3; 1; 4]))
  = Value ([] ++ flat_map (fun x : N => [ascii_of_N (48 + x)] ++ [","%char])
                   (List.filter (fun x => 2 <? x) [0; 3; 1; 4])).
Proof.
  apply (write_trailing_delimiter (fun x : N => [ascii_of_N (48 + x)]) ","%char 3 []
           (Filter 6 (fun x => 2 <? x) (AsDataFlow [0; 3; 1; 4]))
           (List.filter (fun x => 2 <? x) [0; 3; 1; 4])).
  - apply Filter_Emits; [|simpl; lia].
    apply Vector_Emits; [vm_compute; reflexivity|discriminate].
  - simpl. lia.
Defined.

Lemma Out_loop_Run {T : Type} (show : T -> std_string)
    (s : DataStream T) (e i : Iter s) (xs : list T) :
  Run s e i xs ->
  forall (fuel : nat) (os : std_string),
    (length xs < fuel)%nat ->
    Out_loop show fuel s i e os
    = Value (os ++ flat_map (fun x => show x ++ [ascii_of_nat 10]) xs).
Proof.
  induction 1 as [i Hend Hneq | i x i' xs Hend Hneq Hd Hi Hrun IH];
    intros fuel os Hfuel;
    (destruct fuel as [|fuel]; [simpl in Hfuel; lia|]);
    cbn [Out_loop].
  - rewrite Hneq. simpl. by rewrite app_nil_r.
  - rewrite Hneq. simpl. rewrite Hd. simpl. rewrite Hi. simpl.
    rewrite IH by (simpl in Hfuel; lia). by rewrite <- !app_assoc.
Qed.

(** [Out] prints every element on a line of its own: the element, then
    a newline. *)
Theorem out_prints_lines {T : Type} (show : T -> std_string) (fuel : nat)
    (os : std_string) (s : DataStream T) (xs : list T) :
  Emits s xs -> (length xs < fuel)%nat ->
  Out show fuel os s
  = Value (os ++ flat_map (fun x => show x ++ [ascii_of_nat 10]) xs).
Proof.
  intros (b & e & Hb & He & _ & Hrun) Hfuel.
  unfold Out. rewrite Hb, He. simpl. by apply Out_loop_Run.
Qed.

Lemma out_prints_lines_witness :
  Out (fun x : std_string => x) 3 []
    (AsDataFlow [list_ascii_of_string "ab"; list_ascii_of_string "c"])
  = Value ([] ++ flat_map (fun x : std_string => x ++ [ascii_of_nat 10])
                   [list_ascii_of_string "ab"; list_ascii_of_string "c"]).
Proof.
  apply (out_prints_lines (fun x : std_string => x) 3 []
           (AsDataFlow [list_ascii_of_string "ab"; list_ascii_of_string "c"])
           [list_ascii_of_string "ab"; list_ascii_of_string "c"]).
  - apply Vector_Emits; [vm_compute; reflexivity|discriminate].
  - simpl. lia.
Defined.

(** [WriteOnlyPositiveNumbers], on naturals shifted by two. *)
Example write_only_positive :
  Write (fun x : N => [ascii_of_N (48 + x)]) ","%char 6 []
    (Filter 6 (fun x => 2 <? x) (AsDataFlow [0; 1; 2; 3; 4]))
  = Value (list_ascii_of_string "3,4,").
Proof. vm_compute. reflexivity. Qed.

(** ** [SplitExpected] *)

Lemma SplitExpected_loop_Run {T E : Type} (s : DataStream (expected T E))
    (e i : Iter s) (xs : list (expected T E)) :
  Run s e i xs ->
  forall (fuel : nat) (u : list E) (x : list T),
    (length xs < fuel)%nat ->
    SplitExpected_loop fuel s i u x = Value (u ++ errors_of xs, x ++ values_of xs).
Proof.
  induction 1 as [i Hend Hneq | i v i' xs Hend Hneq Hd Hi Hrun IH];
    intros fuel u x Hfuel;
    (destruct fuel as [|fuel]; [simpl in Hfuel; lia|]); simpl.
  - rewrite Hend. by rewrite !app_nil_r.
  - rewrite Hend, Hd. simpl.
    destruct v as [t|err]; simpl; rewrite Hi; simpl;
      rewrite IH by (simpl in Hfuel; lia); by rewrite <- ?app_assoc.
Qed.

Lemma errors_values_length {T E : Type} (xs : list (expected T E)) :
  (length (errors_of xs) + length (values_of xs) = length xs)%nat.
Proof.
  induction xs as [|[t|err] xs IH]; simpl; [done| |]; lia.
Qed.

(** [SplitExpected] routes every input to exactly one of the two result
    streams: the failure stream is the in-memory source of the errors in
    input order, the success stream that of the values in input order,
    and together they hold as many elements as the input. *)
Theorem split_expected_partitions {T E : Type} (fuel : nat)
    (s : DataStream (expected T E)) (xs : list (expected T E)) :
  Emits s xs -> (length xs < fuel)%nat ->
  SplitExpected fuel s
  = Value {| unexpected_stream := AsDataFlow (errors_of xs);
             expected_stream := AsDataFlow (values_of xs) |}
  /\ (length (errors_of xs) + length (values_of xs) = length xs)%nat.
Proof.
  intros (b & e & Hb & He & _ & Hrun) Hfuel. split.
  - unfold SplitExpected. rewrite Hb, He. simpl.
    by rewrite (SplitExpected_loop_Run s e b xs Hrun fuel [] []).
  - apply errors_values_length.
Qed.

Lemma split_expected_partitions_witness :
  SplitExpected 5
    (AsDataFlow [expected_value 1; unexpected 7; unexpected 8; expected_value 2])
  = Value {| unexpected_stream :=
               AsDataFlow (errors_of
                 [expected_value 1; unexpected 7; unexpected 8; expected_value 2]);
             expected_stream :=
               AsDataFlow (values_of
                 [expected_value 1; unexpected 7; unexpected 8; expected_value 2]) |}
  /\ Nat.add
       (length (errors_of
                  [expected_value 1; unexpected 7; unexpected 8; expected_value 2]))
       (length (values_of
                  [expected_value 1; unexpected 7; unexpected 8; expected_value 2]))
     = length [expected_value 1; unexpected 7; unexpected 8; expected_value (E := N) 2].
Proof.
  apply (split_expected_partitions 5
           (AsDataFlow [expected_value 1; unexpected 7; unexpected 8; expected_value 2])
           [expected_value 1; unexpected 7; unexpected 8; expected_value 2]).
  - apply Vector_Emits; [vm_compute; reflexivity|discriminate].
  - simpl. lia.
Defined.

(** ** What the split adapter keeps *)

Lemma tokens_from_concat (D : gset ascii) (line cur : std_string) :
  concat (tokens_from D cur line) = cur ++ filter (fun c => c ∉ D) line.
Proof.
  revert cur. induction line as [|c rest IH]; intros cur; cbn [tokens_from].
  - destruct cur; simpl; by rewrite ?app_nil_r.
  - destruct (bool_decide_reflect (c ∈ D)) as [Hin|Hout].
    + rewrite (filter_cons_False (fun c : ascii => c ∉ D)) by (intros Hc; by apply Hc).
      destruct (Split.is_empty cur) eqn:Hcur.
      * apply is_empty_true in Hcur. subst cur. apply (IH []).
      * cbn [concat]. by rewrite (IH []).
    + rewrite (filter_cons_True (fun c : ascii => c ∉ D)) by done.
      rewrite IH. by rewrite <- app_assoc.
Qed.

Lemma tokens_of_elements_concat (D : gset ascii) (xs : list std_string) :
  concat (tokens_of_elements D xs) = filter (fun c => c ∉ D) (concat xs).
Proof.
  induction xs as [|x xs IH]; simpl; [done|].
  rewrite concat_app, filter_app, IH. f_equal.
  apply (tokens_from_concat D x []).
Qed.

(** The split adapter drops delimiters and nothing else: the characters
    of the collected tokens, read in order, are the characters of the
    upstream elements that are not delimiters. *)
Theorem split_keeps_other_characters (fuel fuel' : nat) (filter_string : std_string)
    (up : DataStream std_string) (xs : list std_string) :
  Emits up xs ->
  (length xs < fuel)%nat ->
  (length (tokens_of_elements (list_to_set filter_string) xs) < fuel')%nat ->
  exists toks,
    AsVector fuel' (Split fuel filter_string up) = Value toks /\
    concat toks = filter (fun c => c ∉ filter_string) (concat xs).
Proof.
  intros Hup Hfuel Hfuel'.
  exists (tokens_of_elements (list_to_set filter_string) xs). split.
  - apply AsVector_Emits; [|done]. by apply Split_Emits.
  - rewrite tokens_of_elements_concat.
    apply list_filter_iff. intros c. by rewrite elem_of_list_to_set.
Qed.

Lemma split_keeps_other_characters_witness :
  exists toks,
    AsVector 5
      (Split 5 (list_ascii_of_string ",;")
         (AsDataFlow [list_ascii_of_string ",,a;b"; list_ascii_of_string "c,"]))
    = Value toks /\
    concat toks
    = filter (fun c => c ∉ list_ascii_of_string ",;")
        (concat [list_ascii_of_string ",,a;b"; list_ascii_of_string "c,"]).
Proof.
  apply (split_keeps_other_characters 5 5 (list_ascii_of_string ",;")
           (AsDataFlow [list_ascii_of_string ",,a;b"; list_ascii_of_string "c,"])
           [list_ascii_of_string ",,a;b"; list_ascii_of_string "c,"]).
  - apply Vector_Emits; [vm_compute; reflexivity|discriminate].
  - simpl. lia.
  - vm_compute. lia.
Defined.

Lemma tokens_from_no_delimiters (line cur : std_string) :
  tokens_from ∅ cur line = if Split.is_empty (cur ++ line) then [] else [cur ++ line].
Proof.
  revert cur. induction line as [|c rest IH]; intros cur; cbn [tokens_from].
  - by rewrite app_nil_r.
  - rewrite bool_decide_eq_false_2 by apply not_elem_of_empty.
    rewrite IH, <- app_assoc. done.
Qed.

Lemma tokens_of_elements_no_delimiters (xs : list std_string) :
  tokens_of_elements ∅ xs = filter (fun x => x <> []) xs.
Proof.
  induction xs as [|x xs IH]; [done|].
  unfold tokens_of_elements in *. cbn [flat_map]. rewrite IH.
  unfold tokens. rewrite (tokens_from_no_delimiters x []). cbn [app].
  destruct x as [|c x].
  - by rewrite (filter_cons_False (fun x : std_string => x <> [])) by auto.
  - by rewrite (filter_cons_True (fun x : std_string => x <> [])) by done.
Qed.

(** With an empty delimiter string nothing is cut: every non-empty
    upstream element is passed on whole as one token, and empty elements
    disappear. *)
Theorem split_without_delimiters (fuel : nat) (up : DataStream std_string)
    (xs : list std_string) :
  Emits up xs -> (length xs < fuel)%nat ->
  AsVector fuel (Split fuel [] up) = Value (filter (fun x => x <> []) xs).
Proof.
  intros Hup Hfuel.
  pose proof (Split_Emits fuel [] up xs Hup Hfuel) as Hem.
  change (list_to_set []) with (∅ : gset ascii) in Hem.
  rewrite tokens_of_elements_no_delimiters in Hem.
  apply AsVector_Emits; [done|].
  eapply Nat.le_lt_trans; [apply length_filter|done].
Qed.

Lemma split_without_delimiters_witness :
  AsVector 4
    (Split 4 [] (AsDataFlow [list_ascii_of_string "a,b"; []; list_ascii_of_string "c"]))
  = Value (filter (fun x => x <> [])
             [list_ascii_of_string "a,b"; []; list_ascii_of_string "c"]).
Proof.
  apply (split_without_delimiters 4
           (AsDataFlow [list_ascii_of_string "a,b"; []; list_ascii_of_string "c"])
           [list_ascii_of_string "a,b"; []; list_ascii_of_string "c"]).
  - apply Vector_Emits; [vm_compute; reflexivity|discriminate].
  - simpl. lia.
Defined.

(** ** The file-content source on files that start with a non-empty line *)

Section FileFacts.
Context {Path : Type} (files : Path -> option (list std_string)).
Context (up : DataStream Path) (e : Iter up) (fuel : nat).

Let fcs : DataStream std_string := FileContentStream fuel files up.

Lemma open_next_file_loop_reading (i : Iter up) (ps : list Path) :
  Run up e i ps ->
  first_lines_present files ps ->
  (length ps < fuel)%nat ->
  forall (fuel' : nat) (log : list Path),
    (length ps < fuel')%nat ->
    exists f,
      File.open_next_file_loop files up fuel' i None log = Value f /\
      reading files up e fuel f (flat_map (file_lines files) ps).
Proof.
  induction 1 as [i Hend Hneq | i p i' ps Hend Hneq Hd Hi Hrun IH];
    intros Hgood Hfuel fuel' log Hfuel';
    (destruct fuel' as [|fuel']; [simpl in Hfuel'; lia|]);
    cbn [File.open_next_file_loop].
  - rewrite Hend. eexists. split; [done|]. by split.
  - rewrite Hend. cbn [File.differs_from_end obind]. rewrite Hd. cbn [obind].
    apply Forall_cons_1 in Hgood as [Hp Hgood].
    simpl in Hfuel, Hfuel'.
    unfold File.open.
    destruct (files p) as [ls|] eqn:Hfile.
    + destruct (Hp ls eq_refl) as (l & rest & -> & Hl).
      cbn [File.failbit negb]. rewrite Hi. cbn [obind].
      unfold File.getline. cbn [File.failbit File.unread].
      apply is_empty_false in Hl.
      change (File.is_empty l) with (Split.is_empty l). rewrite Hl. cbn [negb].
      eexists. split; [done|]. split; [done|].
      cbn [flat_map]. unfold file_lines at 1. rewrite Hfile. cbn [default app].
      split; [done|]. split; [done|].
      exists i', ps, rest. split; [done|]. split; [done|]. split; [done|].
      split; [done|]. split; [lia|done].
    + cbn [File.failbit negb]. rewrite Hi. cbn [obind].
      destruct (IH Hgood ltac:(lia) fuel' (log ++ [p]) ltac:(lia)) as (f & Hf & Hread).
      exists f. split; [done|].
      cbn [flat_map]. unfold file_lines at 1. rewrite Hfile. exact Hread.
Qed.

Lemma File_Run (E : Iter fcs) (out : list std_string) :
  File.is_end up E = true ->
  forall f : Iter fcs, reading files up e fuel f out -> Run fcs E f out.
Proof.
  intros HEend.
  induction out as [|l out IH]; intros f [Hpe Hread].
  - apply Run_end; [done|].
    cbn. unfold File.neq. by rewrite Hread, HEend.
  - destruct Hread as (Hend & Hline & i' & ps' & rest & Hit & Hfile & Hrun & Hgood
                       & Hfuel & Hout).
    assert (Hneq : neq fcs f E = Value true).
    { cbn. unfold File.neq. by rewrite Hend, Hit. }
    assert (Hderef : deref fcs f = Value l).
    { cbn. unfold File.deref. by rewrite Hend, Hfile, Hline. }
    destruct rest as [|l2 rest2].
    + destruct (open_next_file_loop_reading i' ps' Hrun Hgood Hfuel fuel
                  (File.opened up f) Hfuel) as (f' & Hf' & Hread').
      apply Run_step with (i' := f'); [done|done|done| |].
      * cbn. unfold File.incr. rewrite Hend, Hfile.
        unfold File.getline. cbn. unfold File.open_next_file. cbn.
        by rewrite Hit, Hpe.
      * apply IH. by rewrite Hout.
    + eapply Run_step; [done|done|done| |].
      * cbn. unfold File.incr. rewrite Hend, Hfile.
        unfold File.getline. cbn. done.
      * apply IH. split; [done|]. rewrite Hout. cbn.
        split; [done|]. split; [done|].
        exists i', ps', rest2. by rewrite Hit.
Qed.

End FileFacts.

Lemma File_Emits {Path : Type} (files : Path -> option (list std_string))
    (up : DataStream Path) (fuel : nat) (ps : list Path) :
  Emits up ps ->
  first_lines_present files ps ->
  (length ps < fuel)%nat ->
  Emits (FileContentStream fuel files up) (flat_map (file_lines files) ps).
Proof.
  intros (b & e & Hb & He & _ & Hrun) Hgood Hfuel.
  destruct (open_next_file_loop_reading files up e fuel b ps Hrun Hgood Hfuel
              fuel [] Hfuel) as (f & Hf & Hread).
  eexists f, _. split; [|split; [|split]].
  - cbn. rewrite Hb. cbn. exact Hf.
  - cbn. done.
  - done.
  - by apply (File_Run files up e).
Qed.

(** Over any stream of paths, when every file that opens starts with a
    non-empty line, the file source yields the lines of the files in path
    order, each file's lines in file order, with nothing put between
    files; a path that cannot be opened contributes nothing and does not
    stop the stream.  Lines after the first are emitted as they are. *)
Theorem file_source_reads_all_lines {Path : Type} (fuel fuel' : nat)
    (files : Path -> option (list std_string)) (up : DataStream Path)
    (ps : list Path) :
  Emits up ps ->
  first_lines_present files ps ->
  (length ps < fuel)%nat ->
  (length (flat_map (file_lines files) ps) < fuel')%nat ->
  Emits (OpenFiles fuel files up) (flat_map (file_lines files) ps) /\
  AsVector fuel' (OpenFiles fuel files up) = Value (flat_map (file_lines files) ps).
Proof.
  intros Hup Hgood Hfuel Hfuel'.
  assert (Hem : Emits (OpenFiles fuel files up) (flat_map (file_lines files) ps))
    by (by apply File_Emits).
  split; [done|]. by apply AsVector_Emits.
Qed.

Lemma file_source_reads_all_lines_witness :
  Emits
    (OpenFiles 4
       (fun p : N =>
          if p =? 1 then Some [list_ascii_of_string "a"; []; list_ascii_of_string "b"]
          else if p =? 2 then None
          else Some [list_ascii_of_string "c"])
       (AsDataFlow [1; 2; 3]))
    (flat_map
       (file_lines
          (fun p : N =>
             if p =? 1 then Some [list_ascii_of_string "a"; []; list_ascii_of_string "b"]
             else if p =? 2 then None
             else Some [list_ascii_of_string "c"]))
       [1; 2; 3]) /\
  AsVector 5
    (OpenFiles 4
       (fun p : N =>
          if p =? 1 then Some [list_ascii_of_string "a"; []; list_ascii_of_string "b"]
          else if p =? 2 then None
          else Some [list_ascii_of_string "c"])
       (AsDataFlow [1; 2; 3]))
  = Value
      (flat_map
         (file_lines
            (fun p : N =>
               if p =? 1 then Some [list_ascii_of_string "a"; []; list_ascii_of_string "b"]
               else if p =? 2 then None
               else Some [list_ascii_of_string "c"]))
         [1; 2; 3]).
Proof.
  apply (file_source_reads_all_lines 4 5
           (fun p : N =>
              if p =? 1 then Some [list_ascii_of_string "a"; []; list_ascii_of_string "b"]
              else if p =? 2 then None
              else Some [list_ascii_of_string "c"])
           (AsDataFlow [1; 2; 3]) [1; 2; 3]).
  - apply Vector_Emits; [vm_compute; reflexivity|discriminate].
  - repeat constructor; intros ls Hls; vm_compute in Hls;
      try discriminate; injection Hls as <-;
      eexists _, _; (split; [reflexivity|discriminate]).
  - simpl. lia.
  - vm_compute. lia.
Defined.

(** ** Directory, files and split in one pipeline *)

(** [Dir | OpenFiles | Split] collects the tokens of every line of every
    regular file of the walk, in walk order, as long as each file that
    opens starts with a non-empty line. *)
Theorem dir_files_split_pipeline {Path : Type} (fuel fuel' : nat)
    (entries : list (Path * bool)) (r : bool)
    (files : Path -> option (list std_string)) (filter_string : std_string) :
  first_lines_present files (regular_files entries) ->
  (length entries < fuel)%nat ->
  (length (flat_map (file_lines files) (regular_files entries)) < fuel)%nat ->
  (length (tokens_of_elements (list_to_set filter_string)
             (flat_map (file_lines files) (regular_files entries))) < fuel')%nat ->
  AsVector fuel'
    (Split fuel filter_string (OpenFiles fuel files (DirStream entries r)))
  = Value (tokens_of_elements (list_to_set filter_string)
             (flat_map (file_lines files) (regular_files entries))).
Proof.
  intros Hgood Hfuel Hlines Htoks.
  apply AsVector_Emits; [|done].
  apply Split_Emits; [|done].
  apply File_Emits; [|done|].
  - exists (Dir.make entries r), Dir.make_end.
    split; [done|]. split; [done|]. split; [done|]. apply Dir_Run.
  - unfold regular_files. rewrite length_map.
    pose proof (List.filter_length_le snd entries). lia.
Qed.

Lemma dir_files_split_pipeline_witness :
  AsVector 6
    (Split 6 [ascii_of_nat 32]
       (OpenFiles 6
          (fun p : N =>
             if p =? 1 then Some [list_ascii_of_string "a b"; list_ascii_of_string "c"]
             else Some [list_ascii_of_string "d"])
          (DirStream [(1, true); (9, false); (2, true)] false)))
  = Value (tokens_of_elements (list_to_set [ascii_of_nat 32])
             (flat_map
                (file_lines
                   (fun p : N =>
                      if p =? 1
                      then Some [list_ascii_of_string "a b"; list_ascii_of_string "c"]
                      else Some [list_ascii_of_string "d"]))
                (regular_files [(1, true); (9, false); (2, true)]))).
Proof.
  apply (dir_files_split_pipeline 6 6 [(1, true); (9, false); (2, true)] false
           (fun p : N =>
              if p =? 1 then Some [list_ascii_of_string "a b"; list_ascii_of_string "c"]
              else Some [list_ascii_of_string "d"])
           [ascii_of_nat 32]).
  - repeat constructor; intros ls Hls; vm_compute in Hls;
      try discriminate; injection Hls as <-;
      eexists _, _; (split; [reflexivity|discriminate]).
  - simpl. lia.
  - vm_compute. lia.
  - vm_compute. lia.
Defined.

(** ** More on the joins *)

Lemma JoinedDataStream_insertion_order_witness :
  exists s,
    JoinedDataStream 4 key fst (fun r : N * N => (0, r.2))
      (AsDataFlow [{| key := 1; value := 100 |}; {| key := 2; value := 200 |}])
      (AsDataFlow [(1, 7); (3, 8); (1, 9)])
    = Value s /\
    Emits s
      (left_outer_join key fst (fun r : N * N => (0, r.2))
         [{| key := 1; value := 100 |}; {| key := 2; value := 200 |}]
         [(1, 7); (3, 8); (1, 9)]).
Proof.
  apply (JoinedDataStream_insertion_order 4 key fst (fun r : N * N => (0, r.2))
           (AsDataFlow [{| key := 1; value := 100 |}; {| key := 2; value := 200 |}])
           (AsDataFlow [(1, 7); (3, 8); (1, 9)])
           [{| key := 1; value := 100 |}; {| key := 2; value := 200 |}]
           [(1, 7); (3, 8); (1, 9)]).
  - apply Vector_Emits; [vm_compute; reflexivity|discriminate].
  - apply Vector_Emits; [vm_compute; reflexivity|discriminate].
  - simpl. lia.
  - vm_compute. reflexivity.
Defined.

(** [JoinedWithKeyDataStream] emits, for each left element in order,
    the right elements whose key function value equals its own, whole and
    in the right stream's insertion order, or a single row with an absent
    right value when there is none. *)
Theorem JoinedWithKeyDataStream_insertion_order {L R K : Type} `{Countable K}
    (fuel : nat) (left : DataStream L) (right : DataStream R)
    (left_key_func : L -> K) (right_key_func : R -> K)
    (ls : list L) (rs : list R) :
  Emits left ls -> Emits right rs ->
  (length rs < fuel)%nat -> N.of_nat (length rs) < size_max ->
  exists s,
    JoinedWithKeyDataStream fuel left right left_key_func right_key_func = Value s /\
    Emits s (left_outer_join left_key_func right_key_func (fun r => r) ls rs).
Proof. apply Joined_construct_Emits. Qed.

Lemma JoinedWithKeyDataStream_insertion_order_witness :
  exists s,
    JoinedWithKeyDataStream 4 (AsDataFlow [1; 3]) (AsDataFlow [10; 11; 20])
      (fun l => l) (fun r => r / 10) = Value s /\
    Emits s (left_outer_join (fun l => l) (fun r => r / 10) (fun r => r)
               [1; 3] [10; 11; 20]).
Proof.
  apply (JoinedWithKeyDataStream_insertion_order 4 (AsDataFlow [1; 3])
           (AsDataFlow [10; 11; 20]) (fun l => l) (fun r => r / 10)
           [1; 3] [10; 11; 20]).
  - apply Vector_Emits; [vm_compute; reflexivity|discriminate].
  - apply Vector_Emits; [vm_compute; reflexivity|discriminate].
  - simpl. lia.
  - vm_compute. reflexivity.
Defined.

Lemma Join_insertion_order_when_appended_witness :
  Join AfterEquivalent 4 (AsDataFlow [10; 11; 20])
    (fun l => l) (fun r => r / 10) (AsDataFlow [1; 3])
  = Value (VectorDataStream
             (left_outer_join (fun l => l) (fun r => r / 10) (fun r => r)
                [1; 3] [10; 11; 20])).
Proof.
  apply (Join_insertion_order_when_appended 4 (AsDataFlow [1; 3])
           (AsDataFlow [10; 11; 20]) (fun l => l) (fun r => r / 10)
           [1; 3] [10; 11; 20]).
  - apply Vector_Emits; [vm_compute; reflexivity|discriminate].
  - apply Vector_Emits; [vm_compute; reflexivity|discriminate].
  - simpl. lia.
  - simpl. lia.
Defined.

Section PlacedFacts.
Context {L R K : Type} `{EqDecision K}.
Context (place : placement K R).
Context (left : DataStream L) (right : DataStream R).
Context (lkey : L -> K) (rkey : R -> K).

Lemma fill_placed_Run (e i : Iter right) (rs : list R) :
  end_ptr right = Value e ->
  Run right e i rs ->
  forall (fuel : nat) (m : list (K * R)),
    (length rs < fuel)%nat ->
    fill_placed place right rkey fuel i m
    = Value (foldl (fun m r => place (rkey r) r m) m rs).
Proof.
  intros He.
  induction 1 as [i Hend Hneq | i r i' rs Hend Hneq Hd Hi Hrun IH];
    intros fuel m Hfuel;
    (destruct fuel as [|fuel]; [simpl in Hfuel; lia|]); simpl.
  - by rewrite He; simpl; rewrite Hneq.
  - rewrite He. simpl. rewrite Hneq. simpl. rewrite Hd. simpl.
    rewrite Hi. simpl. apply IH. simpl in Hfuel. lia.
Qed.

Lemma foldl_place_Permutation (rs : list R) (m : list (K * R)) :
  keeps_entries place ->
  foldl (fun m r => place (rkey r) r m) m rs ≡ₚ m ++ map (fun r => (rkey r, r)) rs.
Proof.
  intros Hplace. revert m. induction rs as [|r rs IH]; intros m; simpl.
  - by rewrite app_nil_r.
  - rewrite IH, (Hplace (rkey r) r m). simpl. apply Permutation_middle.
Qed.

Lemma equal_range_Permutation (k : K) (m1 m2 : list (K * R)) :
  m1 ≡ₚ m2 -> KeyJoin.equal_range k m1 ≡ₚ KeyJoin.equal_range k m2.
Proof.
  intros Hperm. unfold KeyJoin.equal_range.
  apply Permutation_map. by rewrite Hperm.
Qed.

Lemma Join_placed_Emits (ls : list L) (rs : list R) (fuel : nat) :
  Emits left ls -> Emits right rs ->
  (length ls < fuel)%nat -> (length rs < fuel)%nat ->
  Join_placed place fuel right lkey rkey left
  = Value (VectorDataStream
             (flat_map
                (fun l => join_rows l
                   (KeyJoin.equal_range (lkey l)
                      (foldl (fun m r => place (rkey r) r m) [] rs)))
                ls)).
Proof.
  intros (bl & el & Hbl & Hel & _ & Hrunl) (br & er & Hbr & Her & _ & Hrunr) Hl Hr.
  unfold Join_placed. rewrite Hbr. simpl.
  rewrite (fill_placed_Run er br rs Her Hrunr fuel [] Hr). simpl.
  rewrite Hbl. simpl.
  rewrite (emit_Run left lkey _ el bl ls Hel Hrunl fuel [] Hl). simpl.
  do 2 f_equal. apply flat_map_ext. intros l. apply rows_for_join_rows.
Qed.
End PlacedFacts.

(** The two placements of [emplace_policy] are instances. *)
Lemma Join_placed_policy {L R K : Type} `{EqDecision K} (policy : emplace_policy)
    (fuel : nat) (right : DataStream R) (lkey : L -> K) (rkey : R -> K)
    (left : DataStream L) :
  keeps_entries (@KeyJoin.emplace R K policy) /\
  Join policy fuel right lkey rkey left
  = Join_placed (@KeyJoin.emplace R K policy) fuel right lkey rkey left.
Proof.
  split.
  - intros k v m. unfold KeyJoin.emplace. destruct policy; [|done].
    by rewrite <- Permutation_cons_append.
  - unfold Join, Join_placed, KeyJoin.rows.
    destruct (begin_ptr right) as [rit| | |]; simpl; try done.
    assert (Hfill : forall n i m,
      KeyJoin.fill policy right rkey n i m
      = fill_placed (@KeyJoin.emplace R K policy) right rkey n i m).
    { induction n as [|n IH]; intros i m; [done|]. simpl.
      destruct (end_ptr right); simpl; try done.
      destruct (neq right i a) as [[]| | |]; simpl; try done.
      destruct (deref right i); simpl; try done.
      destruct (incr right i); simpl; try done. }
    rewrite Hfill.
    destruct (fill_placed _ right rkey fuel rit []); simpl; try done.
    by destruct (begin_ptr left).
Qed.

(** Whatever the library does with equal keys, as long as [emplace]
    adds the new entry and keeps the old ones: the rows
    [Join(right, lkey, rkey)] stores for a left element carry exactly the
    right elements with its key, each as often as it occurs in the right
    stream; only their order among themselves is the library's. *)
Theorem join_rows_are_matches {L R K : Type} `{EqDecision K} (place : placement K R)
    (fuel : nat) (left : DataStream L) (right : DataStream R)
    (lkey : L -> K) (rkey : R -> K) (ls : list L) (rs : list R) :
  keeps_entries place ->
  Emits left ls -> Emits right rs ->
  (length ls < fuel)%nat -> (length rs < fuel)%nat ->
  exists groups,
    Join_placed place fuel right lkey rkey left
    = Value (VectorDataStream (concat groups)) /\
    Forall2 (fun l g =>
               exists ms, ms ≡ₚ filter (fun r => rkey r = lkey l) rs /\
                          g = join_rows l ms)
      ls groups.
Proof.
  intros Hplace Hl Hr Hfl Hfr.
  exists (map (fun l => join_rows l
                 (KeyJoin.equal_range (lkey l)
                    (foldl (fun m r => place (rkey r) r m) [] rs))) ls).
  split.
  - rewrite (Join_placed_Emits place left right lkey rkey ls rs fuel) by done.
    by rewrite flat_map_concat_map.
  - apply Forall2_map_self. intros l. eexists. split; [|done].
    rewrite (equal_range_Permutation (lkey l) _ _
               (foldl_place_Permutation place rkey rs [] Hplace)).
    simpl. rewrite (equal_range_entries rkey (lkey l) rs).
    unfold matches. by rewrite map_id.
Qed.

Lemma join_rows_are_matches_witness :
  exists groups,
    Join_placed
      (fun k v m => match m with [] => [(k, v)] | x :: m' => x :: (k, v) :: m' end)
      5 (AsDataFlow [10; 11; 12; 20])
      (fun l => l) (fun r => r / 10) (AsDataFlow [1; 3])
    = Value (VectorDataStream (concat groups)) /\
    Forall2 (fun l g =>
               exists ms, ms ≡ₚ filter (fun r => r / 10 = l) [10; 11; 12; 20] /\
                          g = join_rows l ms)
      [1; 3] groups.
Proof.
  apply (join_rows_are_matches
           (fun k v m => match m with [] => [(k, v)] | x :: m' => x :: (k, v) :: m' end)
           5 (AsDataFlow [1; 3]) (AsDataFlow [10; 11; 12; 20])
           (fun l => l) (fun r => r / 10) [1; 3] [10; 11; 12; 20]).
  - intros k v m. destruct m; [reflexivity|apply perm_swap].
  - apply Vector_Emits; [vm_compute; reflexivity|discriminate].
  - apply Vector_Emits; [vm_compute; reflexivity|discriminate].
  - simpl. lia.
  - simpl. lia.
Defined.

(** A placement that is neither of the two policies: the new entry goes
    second.  The matches 10, 11, 12 come out as 10, 12, 11. *)
Example join_placed_second :
  (let! s := Join_placed
               (fun k v m => match m with [] => [(k, v)] | x :: m' => x :: (k, v) :: m' end)
               5 (AsDataFlow [10; 11; 12; 20])
               (fun l => l) (fun r => r / 10) (AsDataFlow [1; 3]) in
   AsVector 5 s)
  = Value [Build_JoinResult 1 (Some 10); Build_JoinResult 1 (Some 12);
           Build_JoinResult 1 (Some 11); Build_JoinResult 3 None].
Proof. vm_compute. reflexivity. Qed.

(** Against a right stream without elements both joins return every
    left element exactly once, in order, with an absent right value. *)
Theorem join_without_right_elements {L RS R K : Type} `{Countable K} (fuel : nat)
    (policy : emplace_policy) (left : DataStream L) (right : DataStream RS)
    (left_key : L -> K) (right_key : RS -> K) (right_value : RS -> R)
    (ls : list L) :
  Emits left ls -> Emits right [] -> (length ls < fuel)%nat ->
  (exists s,
      Joined_construct fuel left right left_key right_key right_value = Value s /\
      Emits s (map (fun l => Build_JoinResult l None) ls)) /\
  Join policy fuel right left_key right_key left
  = Value (VectorDataStream (map (fun l => Build_JoinResult l None) ls)).
Proof.
  intros Hl Hr Hfuel. split.
  - destruct (Joined_construct_Emits fuel left right left_key right_key right_value
                ls [] Hl Hr) as (s & Hs & Hem).
    + simpl. lia.
    + vm_compute. reflexivity.
    + exists s. split; [done|].
      replace (map (fun l => Build_JoinResult l None) ls)
        with (left_outer_join left_key right_key right_value ls []); [done|].
      unfold left_outer_join. clear. induction ls as [|l ls IH]; [done|].
      cbn [flat_map map]. rewrite IH. reflexivity.
  - unfold Join.
    rewrite (KeyJoin_rows_Emits policy left right left_key right_key ls [] fuel)
      by (try done; simpl; lia).
    simpl. do 2 f_equal. clear. induction ls as [|l ls IH]; [done|].
    cbn [flat_map map]. rewrite IH. by destruct policy.
Qed.

Lemma join_without_right_elements_witness :
  (exists s,
      Joined_construct 3 (AsDataFlow [4; 5]) (DirStream [(1, false)] false)
        (fun l => l) (fun r : N => r) (fun r => r) = Value s /\
      Emits s (map (fun l => Build_JoinResult l None) [4; 5])) /\
  Join AfterEquivalent 3 (DirStream [(1, false)] false)
    (fun l => l) (fun r : N => r) (AsDataFlow [4; 5])
  = Value (VectorDataStream (map (fun l => Build_JoinResult l None) [4; 5])).
Proof.
  apply (join_without_right_elements 3 AfterEquivalent (AsDataFlow [4; 5])
           (DirStream [(1, false)] false) (fun l => l) (fun r : N => r)
           (fun r => r) [4; 5]).
  - apply Vector_Emits; [vm_compute; reflexivity|discriminate].
  - exists (Dir.make [(1, false)] false), Dir.make_end.
    split; [reflexivity|]. split; [reflexivity|]. split; [reflexivity|].
    apply (Dir_Run [(1, false)] [(1, false)] false).
  - simpl. lia.
Defined.

(** ** The side-effecting transform over a non-empty source *)

Lemma transform_source_nonempty_witness :
  Effectful.collect (AsDataFlow [1; 2; 3]) (fun x total => (total + x, total + x)) 4 0
  = let '(ys, e2, j) :=
      transform_in_order (fun x total => (total + x, total + x)) [1; 2; 3] 0 in
    Value (ys, {| Effectful.env := e2; Effectful.journal := j |}).
Proof.
  apply (transform_source_nonempty (fun x total => (total + x, total + x))
           [1; 2; 3] 4 0).
  - discriminate.
  - vm_compute. reflexivity.
  - simpl. lia.
Defined.

(** ** Splitting what is already split *)

Lemma tokens_from_clean (D : gset ascii) (line cur : std_string) :
  Forall (fun c => c ∉ D) line ->
  tokens_from D cur line = if Split.is_empty (cur ++ line) then [] else [cur ++ line].
Proof.
  revert cur. induction line as [|c rest IH]; intros cur Hclean; cbn [tokens_from].
  - by rewrite app_nil_r.
  - apply Forall_cons_1 in Hclean as [Hc Hrest].
    rewrite bool_decide_eq_false_2 by done.
    rewrite IH by done. by rewrite <- app_assoc.
Qed.

Lemma tokens_of_elements_clean (D : gset ascii) (ts : list std_string) :
  Forall (fun t => t <> []) ts ->
  Forall (fun t => Forall (fun c => c ∉ D) t) ts ->
  tokens_of_elements D ts = ts.
Proof.
  induction ts as [|t ts IH]; intros Hne Hclean; [done|].
  apply Forall_cons_1 in Hne as [Ht Hne].
  apply Forall_cons_1 in Hclean as [Hc Hclean].
  unfold tokens_of_elements in *. cbn [flat_map]. rewrite IH by done.
  unfold tokens. rewrite tokens_from_clean by done. cbn [app].
  apply is_empty_false in Ht. by rewrite Ht.
Qed.

(** Splitting is idempotent: a second split with the same delimiters
    over a split stream passes every token through unchanged. *)
Theorem split_idempotent (fuel fuel' : nat) (filter_string : std_string)
    (up : DataStream std_string) (xs : list std_string) :
  Emits up xs ->
  (length xs < fuel)%nat ->
  (length (tokens_of_elements (list_to_set filter_string) xs) < fuel')%nat ->
  AsVector fuel' (Split fuel' filter_string (Split fuel filter_string up))
  = AsVector fuel' (Split fuel filter_string up).
Proof.
  intros Hup Hfuel Hfuel'.
  pose proof (Split_Emits fuel filter_string up xs Hup Hfuel) as Hem.
  pose proof (Split_Emits fuel' filter_string _ _ Hem Hfuel') as Hem2.
  rewrite tokens_of_elements_clean in Hem2
    by (apply tokens_of_elements_nonempty || apply tokens_of_elements_no_delimiter).
  unfold Split.
  rewrite (AsVector_Emits _ _ fuel' Hem Hfuel').
  by rewrite (AsVector_Emits _ _ fuel' Hem2 Hfuel').
Qed.

Lemma split_idempotent_witness :
  AsVector 5
    (Split 5 (list_ascii_of_string ",")
       (Split 3 (list_ascii_of_string ",")
          (AsDataFlow [list_ascii_of_string "a,b"; list_ascii_of_string ",c"])))
  = AsVector 5
      (Split 3 (list_ascii_of_string ",")
         (AsDataFlow [list_ascii_of_string "a,b"; list_ascii_of_string ",c"])).
Proof.
  apply (split_idempotent 3 5 (list_ascii_of_string ",")
           (AsDataFlow [list_ascii_of_string "a,b"; list_ascii_of_string ",c"])
           [list_ascii_of_string "a,b"; list_ascii_of_string ",c"]).
  - apply Vector_Emits; [vm_compute; reflexivity|discriminate].
  - simpl. lia.
  - vm_compute. lia.
Defined.

(** ** The path after a file without a non-empty first line *)

Lemma open_next_file_loop_opened {Path : Type}
    (files : Path -> option (list std_string)) (up : DataStream Path)
    (e i : Iter up) (ps : list Path) :
  Run up e i ps ->
  first_lines_present files ps ->
  forall (fuel : nat) (log : list Path),
    (length ps < fuel)%nat ->
    exists f,
      File.open_next_file_loop files up fuel i None log = Value f /\
      File.opened up f = log ++ tried files ps.
Proof.
  induction 1 as [i Hend Hneq | i p i' ps Hend Hneq Hd Hi Hrun IH];
    intros Hgood fuel log Hfuel;
    (destruct fuel as [|fuel]; [simpl in Hfuel; lia|]);
    cbn [File.open_next_file_loop].
  - rewrite Hend. eexists. split; [done|]. cbn. by rewrite app_nil_r.
  - rewrite Hend. cbn [File.differs_from_end obind]. rewrite Hd. cbn [obind].
    apply Forall_cons_1 in Hgood as [Hp Hgood].
    simpl in Hfuel. unfold File.open. cbn [tried].
    destruct (files p) as [ls|] eqn:Hfile.
    + destruct (Hp ls eq_refl) as (l & rest & -> & Hl).
      cbn [File.failbit negb]. rewrite Hi. cbn [obind].
      unfold File.getline. cbn [File.failbit File.unread].
      apply is_empty_false in Hl.
      change (File.is_empty l) with (Split.is_empty l). rewrite Hl. cbn [negb].
      eexists. split; [done|]. done.
    + cbn [File.failbit negb]. rewrite Hi. cbn [obind].
      destruct (IH Hgood fuel (log ++ [p]) ltac:(lia)) as (f & Hf & Hlog).
      exists f. split; [done|]. by rewrite Hlog, <- app_assoc.
Qed.

(** C10.  When the file at the current path [p] opens but yields no
    non-empty first line (it has no line at all, or its first line is
    empty), [open_next_file] advances the path cursor a second time.
    With [q] the next path and [rest] the paths after it (each of which,
    if it opens, starts with a non-empty line): the call returns a cursor
    that emits the lines of the files of [rest] and nothing else, so the
    remaining lines of [p] and every line of [q] are lost; and the paths
    it has handed to [std::ifstream] are [p] and then paths of [rest]
    only, so [q] is never opened. *)
Theorem open_next_file_skips_next_path {Path : Type}
    (files : Path -> option (list std_string)) (up : DataStream Path)
    (e i : Iter up) (fuel fuel' : nat) (log : list Path)
    (p q : Path) (rest : list Path) (ls : list std_string) :
  Run up e i (p :: q :: rest) ->
  files p = Some ls ->
  head ls = None \/ head ls = Some [] ->
  first_lines_present files rest ->
  (length rest < fuel)%nat ->
  (length rest < fuel')%nat ->
  exists f,
    File.open_next_file_loop files up (S fuel') i None log = Value f /\
    File.opened up f = log ++ p :: tried files rest /\
    forall E : Iter (FileContentStream fuel files up),
      File.is_end up E = true ->
      Run (FileContentStream fuel files up) E f (flat_map (file_lines files) rest).
Proof.
  intros Hrun Hfile Hfirst Hgood Hfuel Hfuel'.
  inversion Hrun as [|i0 p0 i1 ps1 Hend Hneq Hd Hi1 Hrun1]; subst.
  inversion Hrun1 as [|i0 q0 i2 ps2 Hend1 Hneq1 Hd1 Hi2 Hrun2]; subst.
  rewrite (open_next_file_loop_double_advance files up fuel' i i1 i2 None log p ls)
    by done.
  destruct (open_next_file_loop_reading files up e fuel i2 rest Hrun2 Hgood Hfuel
              fuel' (log ++ [p]) Hfuel') as (f & Hf & Hread).
  destruct (open_next_file_loop_opened files up e i2 rest Hrun2 Hgood
              fuel' (log ++ [p]) Hfuel') as (f' & Hf' & Hlog).
  rewrite Hf in Hf'. injection Hf' as <-.
  exists f. split; [done|]. split.
  - by rewrite Hlog, <- app_assoc.
  - intros E HE. by apply (File_Run files up e).
Qed.

Lemma open_next_file_skips_next_path_witness :
  exists f,
    File.open_next_file_loop
      (fun p : N =>
         if p =? 1 then Some [[]; list_ascii_of_string "lost"]
         else if p =? 2 then Some [list_ascii_of_string "hidden"]
         else Some [list_ascii_of_string "y"; list_ascii_of_string "z"])
      (AsDataFlow [1; 2; 3]) 3 (Vector.make [1; 2; 3]) None [] = Value f /\
    File.opened (AsDataFlow [1; 2; 3]) f
    = [] ++ 1 :: tried
        (fun p : N =>
           if p =? 1 then Some [[]; list_ascii_of_string "lost"]
           else if p =? 2 then Some [list_ascii_of_string "hidden"]
           else Some [list_ascii_of_string "y"; list_ascii_of_string "z"])
        [3] /\
    forall E : Iter (FileContentStream 4
                       (fun p : N =>
                          if p =? 1 then Some [[]; list_ascii_of_string "lost"]
                          else if p =? 2 then Some [list_ascii_of_string "hidden"]
                          else Some [list_ascii_of_string "y"; list_ascii_of_string "z"])
                       (AsDataFlow [1; 2; 3])),
      File.is_end (AsDataFlow [1; 2; 3]) E = true ->
      Run (FileContentStream 4
             (fun p : N =>
                if p =? 1 then Some [[]; list_ascii_of_string "lost"]
                else if p =? 2 then Some [list_ascii_of_string "hidden"]
                else Some [list_ascii_of_string "y"; list_ascii_of_string "z"])
             (AsDataFlow [1; 2; 3]))
        E f
        (flat_map
           (file_lines
              (fun p : N =>
                 if p =? 1 then Some [[]; list_ascii_of_string "lost"]
                 else if p =? 2 then Some [list_ascii_of_string "hidden"]
                 else Some [list_ascii_of_string "y"; list_ascii_of_string "z"]))
           [3]).
Proof.
  apply (open_next_file_skips_next_path
           (fun p : N =>
              if p =? 1 then Some [[]; list_ascii_of_string "lost"]
              else if p =? 2 then Some [list_ascii_of_string "hidden"]
              else Some [list_ascii_of_string "y"; list_ascii_of_string "z"])
           (AsDataFlow [1; 2; 3]) Vector.make_end (Vector.make [1; 2; 3])
           4 2 [] 1 2 [3] [[]; list_ascii_of_string "lost"]).
  - apply (Vector_Run_from [1; 2; 3] ltac:(vm_compute; reflexivity) [1; 2; 3]
             ltac:(discriminate) 0%nat eq_refl).
  - reflexivity.
  - right. reflexivity.
  - repeat constructor; intros ls Hls; vm_compute in Hls;
      try discriminate; injection Hls as <-;
      eexists _, _; (split; [reflexivity|discriminate]).
  - simpl. lia.
  - simpl. lia.
Defined.

(** The same three files read through the stream: only the lines of
    the third file come out, and the second path is never opened. *)
Example empty_first_line_hides_next :
  AsVector 4
    (OpenFiles 4
       (fun p : N =>
          if p =? 1 then Some [[]; list_ascii_of_string "lost"]
          else if p =? 2 then Some [list_ascii_of_string "hidden"]
          else Some [list_ascii_of_string "y"; list_ascii_of_string "z"])
       (AsDataFlow [1; 2; 3]))
  = Value [list_ascii_of_string "y"; list_ascii_of_string "z"].
Proof. vm_compute. reflexivity. Qed.
